(** * track-swift-rides: driver store, marker animator, staleness check and
      WebSocket reconnect policy

    A shallow embedding of the logic of the dashboard:

    - [src/types/tracking.ts]            the data model ([Tracking]);
    - [src/pages/DriverTracking.tsx]     the message handler and the driver
                                         store, in the revision that records
                                         [lastUpdate] ([Store]) and in the
                                         one before it ([Earlier]);
    - [src/components/tracking/MapView.tsx]  [easeInOut], [isDriverStale] and
                                         [animateMarkerMovement] ([Animator]);
    - [src/hooks/useWebSocket.ts]        the reconnect policy ([Transport]).

    Conventions.  A JavaScript [number] holding a coordinate or a
    [performance.now()] reading is an IEEE-754 binary64 value, modelled by
    Rocq's primitive [float].  A millisecond timestamp ([Date.now()],
    [lastUpdate]) is an integer, modelled by [Z].  An optional property is an
    [option]; a property holding [undefined] is identified with an absent one.
    The clock and [Math.random] are inputs of the operations that read them. *)

From Stdlib Require Import Floats.PrimFloat ZArith Lia.
From stdpp Require Import base strings list gmap pretty.

Set Warnings "-inexact-float".
#[local] Open Scope Z_scope.

(** ** JavaScript truthiness of strings and [a || b] *)

Module JS.

(** A string is falsy exactly when it is empty. *)
Definition truthy (s : string) : bool :=
  match s with EmptyString => false | String _ _ => true end.

(** [a || b] where [a] may be undefined and [b] is a string. *)
Definition or_str (a : option string) (b : string) : string :=
  match a with
  | Some s => if truthy s then s else b
  | None => b
  end.

(** [a || b] where both sides may be undefined. *)
Definition or_opt (a b : option string) : option string :=
  match a with
  | Some s => if truthy s then Some s else b
  | None => b
  end.

(** [x + d] on numbers where [x] may be [undefined]: [undefined + d] is
    NaN. *)
Definition add_num (x : option float) (d : float) : option float :=
  Some (match x with Some v => (v + d)%float | None => nan end).

End JS.

(** ** Data model: [src/types/tracking.ts] *)

Module Tracking.

Record Location := mkLocation {
  lat : option float;
  lng : option float
}.

Record Delivery := mkDelivery {
  delivery_id : string;
  address : string;
  estimatedArrival : string
}.

Inductive Status := active | inactive | break.

#[export] Instance Status_eq_dec : EqDecision Status.
Proof. solve_decision. Defined.

Record Driver := mkDriver {
  id : string;
  name : string;
  vehicle : string;
  status : Status;
  location : Location;
  prevLocation : option Location;
  phone : option string;
  currentDelivery : option Delivery;   (* [None] is [null] *)
  lastUpdate : option Z
}.

(** A decoded message.  The handler reads [type], [driver], [drivers] and,
    through [FlutterDriverUpdate], the flat [lat], [lng], [name], [phone]
    and [id]; every one of them may be missing from the JSON object. *)
Record WebSocketMessage := mkMessage {
  m_type : option string;
  m_driver : option Driver;
  m_drivers : option (list Driver);
  m_lat : option float;
  m_lng : option float;
  m_name : option string;
  m_phone : option string;
  m_id : option string
}.

(** What [JSON.parse(message.data)] does with the text of a frame. *)
Inductive Payload :=
| Unparsable                       (* [JSON.parse] throws a SyntaxError *)
| ParsedNull                       (* parses to [null]: [data.type] throws *)
| ParsedScalar                     (* a number, string or boolean *)
| ParsedObject (data : WebSocketMessage).

Definition ids (l : list Driver) : list string := id <$> l.

End Tracking.

(** ** Staleness: [isDriverStale] of [MapView.tsx] and [DriversList.tsx] *)

Module Staleness.
Import Tracking.

(** [if (!driver.lastUpdate) return false;
     return now - driver.lastUpdate > 2 * 60 * 1000;]
    [!x] holds for [undefined] and for the number [0]. *)
Definition isDriverStale (now : Z) (driver : Driver) : bool :=
  match lastUpdate driver with
  | None => false
  | Some t => if Z.eqb t 0 then false else Z.ltb (2 * 60 * 1000) (now - t)
  end.

End Staleness.

(** ** Driver store: [src/pages/DriverTracking.tsx] *)

Module Store.
Import Tracking.

(** Observable effects of a handler besides the new store. *)
Inductive Effect :=
| NewDriverConnected (who : string)  (* toast.success(`New driver connected: ${who}`) *)
| ParseErrorLogged.                  (* console.error('Error parsing WebSocket message:', e) *)

#[export] Instance Effect_eq_dec : EqDecision Effect.
Proof. solve_decision. Defined.

(** [{ ...old, ...upd }]: every property of [upd] wins; the optional
    properties that [upd] lacks are inherited from [old]. *)
Definition spread (old upd : Driver) : Driver :=
  {| id := id upd;
     name := name upd;
     vehicle := vehicle upd;
     status := status upd;
     location := location upd;
     prevLocation := from_option Some (prevLocation old) (prevLocation upd);
     phone := from_option Some (phone old) (phone upd);
     currentDelivery := currentDelivery upd;
     lastUpdate := from_option Some (lastUpdate old) (lastUpdate upd) |}.

Definition with_prev_and_stamp (p : Location) (now : Z) (d : Driver) : Driver :=
  {| id := id d; name := name d; vehicle := vehicle d; status := status d;
     location := location d; prevLocation := Some p; phone := phone d;
     currentDelivery := currentDelivery d; lastUpdate := Some now |}.

Definition with_stamp (now : Z) (d : Driver) : Driver :=
  {| id := id d; name := name d; vehicle := vehicle d; status := status d;
     location := location d; prevLocation := prevLocation d; phone := phone d;
     currentDelivery := currentDelivery d; lastUpdate := Some now |}.

(** [prev.findIndex(driver => driver.id === i)] together with the element. *)
Definition findIndex (i : string) (l : list Driver) : option (nat * Driver) :=
  list_find (λ d, id d = i) l.

(** The updater that [updateDriverLocation] hands to [setDrivers]. *)
Definition updateDriverLocation (now : Z) (updatedDriver : Driver)
    (prev : list Driver) : list Driver * list Effect :=
  match findIndex (id updatedDriver) prev with
  | Some (existingDriverIndex, old) =>
      (<[existingDriverIndex :=
           with_prev_and_stamp (location old) now (spread old updatedDriver)]> prev,
       [])
  | None =>
      (prev ++ [with_stamp now updatedDriver],
       [NewDriverConnected (name updatedDriver)])
  end.

(** [`flutter-${Date.now()}`] *)
Definition flutter_id (now : Z) : string := "flutter-" +:+ pretty now.

(** [processFlutterUpdate].  [drivers] is the snapshot captured by the
    closure, [prev] the state the updater is applied to. *)
Definition processFlutterUpdate (now : Z) (drivers : list Driver)
    (data : WebSocketMessage) (prev : list Driver) : list Driver * list Effect :=
  let known :=
    match m_id data with
    | Some i => if JS.truthy i then findIndex i drivers else None
    | None => None
    end in
  match known with
  | Some (_, found) =>
      let updatedDriver :=
        {| id := id found;
           name := JS.or_str (m_name data) (name found);
           vehicle := vehicle found;
           status := active;
           location := mkLocation (m_lat data) (m_lng data);
           prevLocation := prevLocation found;
           phone := JS.or_opt (m_phone data) (phone found);
           currentDelivery := currentDelivery found;
           lastUpdate := Some now |} in
      updateDriverLocation now updatedDriver prev
  | None =>
      let newDriver :=
        {| id := JS.or_str (m_id data) (flutter_id now);
           name := JS.or_str (m_name data) "Unknown Driver";
           vehicle := "Unknown Vehicle";
           status := active;
           location := mkLocation (m_lat data) (m_lng data);
           prevLocation := None;
           phone := Some (JS.or_str (m_phone data) "Unknown");
           currentDelivery := None;
           lastUpdate := Some now |} in
      (prev ++ [newDriver],
       [NewDriverConnected (JS.or_str (m_name data) "Unknown Driver")])
  end.

Definition type_is (data : WebSocketMessage) (t : string) : bool :=
  bool_decide (m_type data = Some t).

(** [c && x] used as a condition: the value of [x] when [c] holds and [x]
    is present (objects and arrays are truthy). *)
Definition guard {A} (c : bool) (x : option A) : option A :=
  if c then x else None.

(** The [onMessage] callback, branch for branch (the second test repeats
    the first one's type), run by a closure whose [drivers] is the state its
    update is applied to.  [handle] below is the general case. *)
Definition onMessage (now : Z) (drivers : list Driver) (raw : Payload)
    : list Driver * list Effect :=
  match raw with
  | Unparsable | ParsedNull => (drivers, [ParseErrorLogged])
  | ParsedScalar => (drivers, [])
  | ParsedObject data =>
      if type_is data "driver_location_update" then
        processFlutterUpdate now drivers data drivers
      else
        match guard (type_is data "driver_location_update") (m_driver data) with
        | Some d => updateDriverLocation now d drivers
        | None =>
            match guard (type_is data "drivers_list") (m_drivers data) with
            | Some l => (l, [])
            | None => (drivers, [])
            end
        end
  end.

(** The [setInterval] callback: [prevDrivers.map(driver => ...)].  [rnd k]
    is the value of the [k]-th call of [Math.random()]. *)
Definition moveDriver (now : Z) (r1 r2 : float) (driver : Driver) : Driver :=
  match status driver with
  | active =>
      let latChange := ((r1 - 0.5) * 0.001)%float in
      let lngChange := ((r2 - 0.5) * 0.001)%float in
      {| id := id driver; name := name driver; vehicle := vehicle driver;
         status := status driver;
         location := mkLocation (JS.add_num (lat (location driver)) latChange)
                                (JS.add_num (lng (location driver)) lngChange);
         prevLocation := Some (location driver);
         phone := phone driver;
         currentDelivery := currentDelivery driver;
         lastUpdate := Some now |}
  | _ => driver
  end.

Fixpoint moveDrivers (now : Z) (rnd : nat → float) (k : nat)
    (prevDrivers : list Driver) : list Driver :=
  match prevDrivers with
  | [] => []
  | driver :: rest =>
      match status driver with
      | active =>
          moveDriver now (rnd k) (rnd (S k)) driver
            :: moveDrivers now rnd (S (S k)) rest
      | _ => driver :: moveDrivers now rnd k rest
      end
  end.

(** One reconcile operation on the store. *)
Inductive Op :=
| Message (now : Z) (raw : Payload)       (* a frame delivered to [onMessage] *)
| Patch (now : Z) (updatedDriver : Driver) (* [updateDriverLocation] *)
| Tick (now : Z) (rnd : nat → float).     (* the simulated-motion interval *)

Definition reconcile (drivers : list Driver) (op : Op) : list Driver :=
  match op with
  | Message now raw => (onMessage now drivers raw).1
  | Patch now d => (updateDriverLocation now d drivers).1
  | Tick now rnd => moveDrivers now rnd 0 drivers
  end.

Definition reconcile_all (drivers : list Driver) (ops : list Op) : list Driver :=
  foldl reconcile drivers ops.

(** [id &&]: the message carries a truthy id. *)
Definition has_id (data : WebSocketMessage) : bool :=
  match m_id data with
  | Some i => JS.truthy i
  | None => false
  end.

(** The callback as React runs it.  The closure reads the [drivers] of the
    render that created it, here [snapshot]; what it hands to [setDrivers]
    is applied to the state of that moment, here [prev].  [onMessage] above
    is the case of a closure as recent as the state:
    [onMessage now drivers raw = handle now drivers raw drivers]. *)
Definition handle (now : Z) (snapshot : list Driver) (raw : Payload)
    (prev : list Driver) : list Driver * list Effect :=
  match raw with
  | Unparsable | ParsedNull => (prev, [ParseErrorLogged])
  | ParsedScalar => (prev, [])
  | ParsedObject data =>
      if type_is data "driver_location_update" then
        processFlutterUpdate now snapshot data prev
      else
        match guard (type_is data "driver_location_update") (m_driver data) with
        | Some d => updateDriverLocation now d prev
        | None =>
            match guard (type_is data "drivers_list") (m_drivers data) with
            | Some l => (l, [])
            | None => (prev, [])
            end
        end
  end.

(** One reconcile operation, with the snapshot of the closure that handles
    a frame. *)
Inductive Handled :=
| Received (now : Z) (snapshot : list Driver) (raw : Payload)
| Patched (now : Z) (updatedDriver : Driver)
| Ticked (now : Z) (rnd : nat → float).

Definition settle (prev : list Driver) (h : Handled) : list Driver :=
  match h with
  | Received now snapshot raw => (handle now snapshot raw prev).1
  | Patched now d => (updateDriverLocation now d prev).1
  | Ticked now rnd => moveDrivers now rnd 0 prev
  end.

Definition settle_all (prev : list Driver) (hs : list Handled) : list Driver :=
  foldl settle prev hs.

(** What the store relies on: a replacement list without repeated ids, a
    synthesised id that is not in use, and a closure that knows the id a flat
    update names whenever the store holds it. *)
Definition sound (prev : list Driver) (h : Handled) : Prop :=
  match h with
  | Received now snapshot (ParsedObject data) =>
      (m_type data = Some "drivers_list" →
       ∀ l, m_drivers data = Some l → NoDup (ids l)) ∧
      (m_type data = Some "driver_location_update" → has_id data = false →
       flutter_id now ∉ ids prev) ∧
      (m_type data = Some "driver_location_update" →
       ∀ i, m_id data = Some i → JS.truthy i = true →
            i ∈ ids prev → i ∈ ids snapshot)
  | _ => True
  end.

Fixpoint sound_run (prev : list Driver) (hs : list Handled) : Prop :=
  match hs with
  | [] => True
  | h :: rest => sound prev h ∧ sound_run (settle prev h) rest
  end.

(** The number of [Math.random()] calls a tick has made when it reaches the
    driver at index [i]: two for each active driver before it. *)
Definition draws_before (i : nat) (drivers : list Driver) : nat :=
  2 * length (filter (λ d, status d = active) (take i drivers)).

(** An operation other than a full-list replacement. *)
Definition keeps_drivers (op : Op) : Prop :=
  match op with
  | Message _ (ParsedObject data) => m_type data ≠ Some "drivers_list"
  | _ => True
  end.

(** A flat update without id, handled at time [t]. *)
Definition idless_update (td : Z * WebSocketMessage) : Op :=
  Message td.1 (ParsedObject td.2).

End Store.

(** ** The store before [lastUpdate] was recorded:
       [src/pages/DriverTracking.tsx] *)

Module Earlier.
Import Tracking Store.

Definition with_prev (p : Location) (d : Driver) : Driver :=
  {| id := id d; name := name d; vehicle := vehicle d; status := status d;
     location := location d; prevLocation := Some p; phone := phone d;
     currentDelivery := currentDelivery d; lastUpdate := lastUpdate d |}.

Definition updateDriverLocation (updatedDriver : Driver) (prev : list Driver)
    : list Driver * list Effect :=
  match findIndex (id updatedDriver) prev with
  | Some (existingDriverIndex, old) =>
      (<[existingDriverIndex :=
           with_prev (location old) (spread old updatedDriver)]> prev,
       [])
  | None =>
      (prev ++ [updatedDriver], [NewDriverConnected (name updatedDriver)])
  end.

Definition processFlutterUpdate (now : Z) (drivers : list Driver)
    (data : WebSocketMessage) (prev : list Driver) : list Driver * list Effect :=
  let known :=
    match m_id data with
    | Some i => if JS.truthy i then findIndex i drivers else None
    | None => None
    end in
  match known with
  | Some (_, found) =>
      let updatedDriver :=
        {| id := id found;
           name := JS.or_str (m_name data) (name found);
           vehicle := vehicle found;
           status := active;
           location := mkLocation (m_lat data) (m_lng data);
           prevLocation := prevLocation found;
           phone := JS.or_opt (m_phone data) (phone found);
           currentDelivery := currentDelivery found;
           lastUpdate := lastUpdate found |} in
      updateDriverLocation updatedDriver prev
  | None =>
      let newDriver :=
        {| id := JS.or_str (m_id data) (flutter_id now);
           name := JS.or_str (m_name data) "Unknown Driver";
           vehicle := "Unknown Vehicle";
           status := active;
           location := mkLocation (m_lat data) (m_lng data);
           prevLocation := None;
           phone := Some (JS.or_str (m_phone data) "Unknown");
           currentDelivery := None;
           lastUpdate := None |} in
      (prev ++ [newDriver],
       [NewDriverConnected (JS.or_str (m_name data) "Unknown Driver")])
  end.

(** The callback and the interval of that revision; the tick leaves
    [lastUpdate] alone. *)
Definition handle (now : Z) (snapshot : list Driver) (raw : Payload)
    (prev : list Driver) : list Driver * list Effect :=
  match raw with
  | Unparsable | ParsedNull => (prev, [ParseErrorLogged])
  | ParsedScalar => (prev, [])
  | ParsedObject data =>
      if type_is data "driver_location_update" then
        processFlutterUpdate now snapshot data prev
      else
        match guard (type_is data "driver_location_update") (m_driver data) with
        | Some d => updateDriverLocation d prev
        | None =>
            match guard (type_is data "drivers_list") (m_drivers data) with
            | Some l => (l, [])
            | None => (prev, [])
            end
        end
  end.

Definition moveDriver (r1 r2 : float) (driver : Driver) : Driver :=
  match status driver with
  | active =>
      let latChange := ((r1 - 0.5) * 0.001)%float in
      let lngChange := ((r2 - 0.5) * 0.001)%float in
      {| id := id driver; name := name driver; vehicle := vehicle driver;
         status := status driver;
         location := mkLocation (JS.add_num (lat (location driver)) latChange)
                                (JS.add_num (lng (location driver)) lngChange);
         prevLocation := Some (location driver);
         phone := phone driver;
         currentDelivery := currentDelivery driver;
         lastUpdate := lastUpdate driver |}
  | _ => driver
  end.

Fixpoint moveDrivers (rnd : nat → float) (k : nat)
    (prevDrivers : list Driver) : list Driver :=
  match prevDrivers with
  | [] => []
  | driver :: rest =>
      match status driver with
      | active =>
          moveDriver (rnd k) (rnd (S k)) driver :: moveDrivers rnd (S (S k)) rest
      | _ => driver :: moveDrivers rnd k rest
      end
  end.

Definition settle (prev : list Driver) (h : Handled) : list Driver :=
  match h with
  | Received now snapshot raw => (handle now snapshot raw prev).1
  | Patched _ d => (updateDriverLocation d prev).1
  | Ticked _ rnd => moveDrivers rnd 0 prev
  end.

Definition settle_all (prev : list Driver) (hs : list Handled) : list Driver :=
  foldl settle prev hs.

End Earlier.

(** ** What the list shows of a driver: [src/components/tracking/DriversList.tsx] *)

Module Display.
Import Tracking.

(** The dot in front of a driver, in the list, on the marker and in the
    detail toolbar:
    [isDriverStale(driver) ? 'bg-red-500' :
     driver.status === 'active' ? 'bg-green-500' : 'bg-gray-400'] *)
Inductive Colour := bg_red_500 | bg_green_500 | bg_gray_400.

Definition statusColour (now : Z) (driver : Driver) : Colour :=
  if Staleness.isDriverStale now driver then bg_red_500
  else match status driver with
       | active => bg_green_500
       | _ => bg_gray_400
       end.

(** [Math.round(n / d)] for integers [n] and [d > 0]: the nearest integer,
    a tie going up.  The quotient of two integers below 2^52 in size is
    never within a rounding error of a tie it is not, so the integer
    formula is the value of the binary64 computation. *)
Definition Math_round_div (n d : Z) : Z := (2 * n + d) `div` (2 * d).

(** [s.includes(q)] *)
Fixpoint includes (s q : string) : bool :=
  String.prefix q s ||
  match s with
  | EmptyString => false
  | String _ rest => includes rest q
  end.

Section Host.
(** [new Date(isoString).getTime()], with [None] for NaN (an invalid date),
    and [String.prototype.toLowerCase]. *)
Variable getTime : string → option Z.
Variable toLowerCase : string → string.

(** [getMinutesRemaining], with [new Date().getTime()] read as [now]. *)
Definition getMinutesRemaining (now : Z) (isoString : string) : string :=
  match getTime isoString with
  | None => "Arriving"
  | Some arrivalTime =>
      let diffMinutes := Math_round_div (arrivalTime - now) (1000 * 60) in
      if 0 <? diffMinutes then pretty diffMinutes +:+ " min" else "Arriving"
  end.

(** The predicate of [drivers.filter] in [filteredDrivers]. *)
Definition matches (query : string) (driver : Driver) : bool :=
  includes (toLowerCase (name driver)) query
  || includes (toLowerCase (vehicle driver)) query
  || match phone driver with
     | Some p => JS.truthy p && includes p query
     | None => false
     end
  || match currentDelivery driver with
     | Some c => includes (toLowerCase (address c)) query
     | None => false
     end.

Definition filteredDrivers (searchQuery : string) (drivers : list Driver)
    : list Driver :=
  if JS.truthy searchQuery
  then filter (λ d, matches (toLowerCase searchQuery) d = true) drivers
  else drivers.

End Host.

End Display.

(** ** Marker animation: [animateMarkerMovement] and [easeInOut] of
       [src/components/tracking/MapView.tsx]

    The route trace kept in [driverPathCoordinates] is a side channel of the
    frame callback that feeds nothing back into the animation; it is left
    out. *)

Module Animator.
#[local] Open Scope float_scope.

(** [t < 0.5 ? 2 * t * t : -1 + (4 - 2 * t) * t] *)
Definition easeInOut (t : float) : float :=
  if t <? 0.5 then 2 * t * t else -1 + (4 - 2 * t) * t.

(** [Math.min] on two numbers: NaN if either is NaN, and [-0] below [+0]. *)
Definition Math_min (a b : float) : float :=
  if is_nan a || is_nan b then nan
  else if a <? b then a
  else if b <? a then b
  else if get_sign a then a else b.

(** The variables captured by one call of [animateMarkerMovement].
    [run] is the handle of the first frame the call requested; it names the
    call and is read by no code. *)
Record Run := mkRun {
  markerId : string;
  startLng : float;
  startLat : float;
  endLng : float;
  endLat : float;
  duration : float;
  startTime : float;
  run : positive
}.

(** [Math.min(elapsed / duration, 1)] with [elapsed = currentTime - startTime]. *)
Definition progress (r : Run) (currentTime : float) : float :=
  Math_min ((currentTime - startTime r) / duration r) 1.

(** [[currentLng, currentLat]] of the frame callback. *)
Definition sample (r : Run) (currentTime : float) : float * float :=
  let easeProgress := easeInOut (progress r currentTime) in
  (startLng r + (endLng r - startLng r) * easeProgress,
   startLat r + (endLat r - startLat r) * easeProgress).

(** The spec's wording: [from + (to - from) * eased(t)]. *)
Definition eased (t : float) : float :=
  if t <? 0.5 then 2 * t * t else -1 + (4 - 2 * t) * t.

Definition interpolate (from to t : float) : float :=
  from + (to - from) * eased t.

(** One [marker.setLngLat] issued by a frame callback. *)
Record Sample := mkSample {
  by_run : Run;
  at_lng : float;
  at_lat : float
}.

(** The refs of the component and the browser's list of frame callbacks. *)
Record MapState := mkMapState {
  markers : gmap string (float * float);     (* [markers.current], with each marker's [lng, lat] *)
  markerAnimations : gmap string positive;   (* [markerAnimations.current] *)
  frames : gmap positive Run;                (* callbacks requested and neither run nor cancelled *)
  next_frame : positive;                     (* the handle [requestAnimationFrame] returns next *)
  emitted : list Sample                      (* every sample so far, latest first *)
}.

Definition initial : MapState :=
  mkMapState ∅ ∅ ∅ 1%positive [].

(** [markerAnimations.current[markerId] = requestAnimationFrame(animate)] *)
Definition request_frame (r : Run) (st : MapState) : MapState :=
  {| markers := markers st;
     markerAnimations := <[markerId r := next_frame st]> (markerAnimations st);
     frames := <[next_frame st := r]> (frames st);
     next_frame := Pos.succ (next_frame st);
     emitted := emitted st |}.

Definition cancelAnimationFrame (h : positive) (st : MapState) : MapState :=
  {| markers := markers st;
     markerAnimations := markerAnimations st;
     frames := delete h (frames st);
     next_frame := next_frame st;
     emitted := emitted st |}.

(** [marker.setLngLat([currentLng, currentLat])] *)
Definition setLngLat (r : Run) (pos : float * float) (st : MapState) : MapState :=
  {| markers := alter (λ _, pos) (markerId r) (markers st);
     markerAnimations := markerAnimations st;
     frames := frames st;
     next_frame := next_frame st;
     emitted := mkSample r pos.1 pos.2 :: emitted st |}.

(** The closure [animate] run by the browser at [currentTime]. *)
Definition animate (r : Run) (currentTime : float) (st : MapState) : MapState :=
  let st1 := setLngLat r (sample r currentTime) st in
  if progress r currentTime <? 1 then request_frame r st1 else st1.

(** [if (markerAnimations.current[id])
      cancelAnimationFrame(markerAnimations.current[id])] *)
Definition cancel_recorded (id : string) (st : MapState) : MapState :=
  match markerAnimations st !! id with
  | Some h => cancelAnimationFrame h st
  | None => st
  end.

Definition animateMarkerMovement (id : string)
    (sLng sLat eLng eLat dur now : float) (st : MapState) : MapState :=
  match markers st !! id with
  | None => st
  | Some _ =>
      request_frame (mkRun id sLng sLat eLng eLat dur now (next_frame st))
                    (cancel_recorded id st)
  end.

(** Removal of a marker whose driver left the list:
    [delete markers.current[id]], then cancel and forget its animation. *)
Definition removeMarker (id : string) (st : MapState) : MapState :=
  let st1 := cancel_recorded id st in
  {| markers := delete id (markers st1);
     markerAnimations := delete id (markerAnimations st1);
     frames := frames st1;
     next_frame := next_frame st1;
     emitted := emitted st1 |}.

Definition addMarker (id : string) (pos : float * float) (st : MapState) : MapState :=
  {| markers := <[id := pos]> (markers st);
     markerAnimations := markerAnimations st;
     frames := frames st;
     next_frame := next_frame st;
     emitted := emitted st |}.

Inductive Event :=
| AddMarker (id : string) (lng lat : float)
| RemoveMarker (id : string)
| Animate (id : string) (sLng sLat eLng eLat dur now : float)
| Frame (h : positive) (currentTime : float).  (* the browser runs callback [h] *)

Definition step (st : MapState) (e : Event) : MapState :=
  match e with
  | AddMarker id lng lat => addMarker id (lng, lat) st
  | RemoveMarker id => removeMarker id st
  | Animate id sLng sLat eLng eLat dur now =>
      animateMarkerMovement id sLng sLat eLng eLat dur now st
  | Frame h currentTime =>
      match frames st !! h with
      | Some r => animate r currentTime (cancelAnimationFrame h st)
      | None => st
      end
  end.

Definition exec (st : MapState) (es : list Event) : MapState :=
  foldl step st es.

(** Callback [h] is pending and belongs to run [r]. *)
Definition pending (st : MapState) (h : positive) (r : Run) : Prop :=
  frames st !! h = Some r.

(** What the refs maintain: every pending callback is the one recorded for
    its marker in [markerAnimations]; handles and run names are older than
    the next handle. *)
Record consistent (st : MapState) : Prop := mkConsistent {
  tracked : ∀ h r, pending st h r → markerAnimations st !! markerId r = Some h;
  handle_below : ∀ h r, pending st h r → (h < next_frame st)%positive;
  run_below : ∀ h r, pending st h r → (run r < next_frame st)%positive
}.





(** The cleanup of the map effect:
    [Object.values(markerAnimations.current).forEach(id =>
       cancelAnimationFrame(id))] *)
Definition cancel_all (st : MapState) : MapState :=
  foldr cancelAnimationFrame st (map_to_list (markerAnimations st)).*2.

(** Callback [h] is not pending and its handle is already given out. *)
Record spent (h : positive) (st : MapState) : Prop := mkSpent {
  spent_gone : frames st !! h = None;
  spent_below : (h < next_frame st)%positive
}.

(** Marker [id] does not exist and nothing is pending for it. *)
Record removed (id : string) (st : MapState) : Prop := mkRemoved {
  removed_marker : markers st !! id = None;
  removed_pending : ∀ h r, pending st h r → markerId r ≠ id
}.

(** An event other than the creation of marker [id]. *)
Definition keeps_removed (id : string) (e : Event) : Prop :=
  match e with
  | AddMarker m _ _ => m ≠ id
  | _ => True
  end.

End Animator.

(** ** Reconnect policy: [src/hooks/useWebSocket.ts] *)

Module Transport.
#[local] Open Scope nat_scope.

Inductive ReadyState := CONNECTING | OPEN | CLOSING | CLOSED.

Inductive Toast :=
| Connected                     (* success: "Connected to driver tracking server" *)
| ConnectionLost (n budget : nat)  (* info: `Connection lost. Attempting to reconnect (${n}/${budget})...` *)
| ReconnectFailed (budget : nat)   (* error: `Failed to reconnect after ${budget} attempts. ...` *)
| ConnectionError               (* error: "Connection error. Check console for details." *)
| ConnectFailed.                (* error: "Failed to establish WebSocket connection." *)

#[export] Instance Toast_eq_dec : EqDecision Toast.
Proof. solve_decision. Defined.

(** The props of the hook.  [url_ok] tells whether [new WebSocket(url)]
    accepts the URL (it throws a SyntaxError otherwise). *)
Record Props := mkProps {
  url_ok : bool;
  reconnectAttempts : nat;
  reconnectInterval : nat
}.

(** The defaults of the parameter list: 5 attempts, 5000 ms. *)
Definition defaults (ok : bool) : Props := mkProps ok 5 5000.

Record Hook := mkHook {
  sockets : list ReadyState;          (* every WebSocket created, with its readyState *)
  socket : option nat;                (* [socket.current], an index into [sockets] *)
  reconnectCount : nat;               (* [reconnectCount.current] *)
  reconnectTimeoutRef : option positive;
  timers : gmap positive nat;         (* pending timeouts, with their delay *)
  next_timer : positive;
  readyState : ReadyState;            (* the React state behind [connectionStatus] *)
  toasts : list Toast;                (* oldest first *)
  scheduled : list nat                (* the delay of every [setTimeout(connect, _)] so far *)
}.

Definition unmounted : Hook :=
  mkHook [] None 0 None ∅ 1%positive CONNECTING [] [].

Definition toast (t : Toast) (st : Hook) : Hook :=
  mkHook (sockets st) (socket st) (reconnectCount st) (reconnectTimeoutRef st)
         (timers st) (next_timer st) (readyState st) (toasts st ++ [t]) (scheduled st).

Definition setReadyState (r : ReadyState) (st : Hook) : Hook :=
  mkHook (sockets st) (socket st) (reconnectCount st) (reconnectTimeoutRef st)
         (timers st) (next_timer st) r (toasts st) (scheduled st).

Definition set_reconnectCount (n : nat) (st : Hook) : Hook :=
  mkHook (sockets st) (socket st) n (reconnectTimeoutRef st)
         (timers st) (next_timer st) (readyState st) (toasts st) (scheduled st).

(** The browser moves socket [s] to state [r]. *)
Definition set_socket_state (s : nat) (r : ReadyState) (st : Hook) : Hook :=
  mkHook (<[s := r]> (sockets st)) (socket st) (reconnectCount st)
         (reconnectTimeoutRef st) (timers st) (next_timer st) (readyState st)
         (toasts st) (scheduled st).

Definition current_state (st : Hook) : option ReadyState :=
  match socket st with
  | Some s => sockets st !! s
  | None => None
  end.

(** [connect]: nothing while the current socket is open or connecting;
    otherwise a new socket, or the error toast of the [catch]. *)
Definition connect (p : Props) (st : Hook) : Hook :=
  match current_state st with
  | Some OPEN | Some CONNECTING => st
  | _ =>
      if url_ok p then
        mkHook (sockets st ++ [CONNECTING]) (Some (length (sockets st)))
               (reconnectCount st) (reconnectTimeoutRef st) (timers st)
               (next_timer st) (readyState st) (toasts st) (scheduled st)
      else toast ConnectFailed st
  end.

(** [socket.current.close()] *)
Definition close_current (st : Hook) : Hook :=
  match socket st, current_state st with
  | Some s, Some OPEN | Some s, Some CONNECTING => set_socket_state s CLOSING st
  | _, _ => st
  end.

Definition clearTimeout (t : positive) (st : Hook) : Hook :=
  mkHook (sockets st) (socket st) (reconnectCount st) (reconnectTimeoutRef st)
         (delete t (timers st)) (next_timer st) (readyState st) (toasts st)
         (scheduled st).

(** [reconnectTimeoutRef.current = window.setTimeout(() => connect(), delay)] *)
Definition setTimeout_connect (delay : nat) (st : Hook) : Hook :=
  mkHook (sockets st) (socket st) (reconnectCount st) (Some (next_timer st))
         (<[next_timer st := delay]> (timers st)) (Pos.succ (next_timer st))
         (readyState st) (toasts st) (scheduled st ++ [delay]).

Definition onopen (st : Hook) : Hook :=
  toast Connected (set_reconnectCount 0 (setReadyState OPEN st)).

Definition onclose (p : Props) (wasClean : bool) (st : Hook) : Hook :=
  let st := setReadyState CLOSED st in
  if negb wasClean && bool_decide (reconnectCount st < reconnectAttempts p) then
    let st := set_reconnectCount (reconnectCount st + 1) st in
    let st := toast (ConnectionLost (reconnectCount st) (reconnectAttempts p)) st in
    let st :=
      match reconnectTimeoutRef st with
      | Some t => clearTimeout t st
      | None => st
      end in
    setTimeout_connect (reconnectInterval p) st
  else if bool_decide (reconnectAttempts p ≤ reconnectCount st) then
    toast (ReconnectFailed (reconnectAttempts p)) st
  else st.

Definition onerror (st : Hook) : Hook := toast ConnectionError st.

(** [reconnect]: close the current socket, reset the counter, connect. *)
Definition reconnect (p : Props) (st : Hook) : Hook :=
  connect p (set_reconnectCount 0 (close_current st)).

Inductive Event :=
| Opened (s : nat)                    (* socket [s] opens: its [onopen] runs *)
| Closed (s : nat) (wasClean : bool)  (* socket [s] closes: its [onclose] runs *)
| Errored (s : nat)
| TimerFired (t : positive)
| Reconnect.                          (* the caller invokes [reconnect()] *)

Definition step (p : Props) (st : Hook) (e : Event) : Hook :=
  match e with
  | Opened s => onopen (set_socket_state s OPEN st)
  | Closed s wasClean => onclose p wasClean (set_socket_state s CLOSED st)
  | Errored s => onerror st
  | TimerFired t =>
      match timers st !! t with
      | Some _ => connect p (clearTimeout t st)
      | None => st
      end
  | Reconnect => reconnect p st
  end.

Definition exec (p : Props) (st : Hook) (es : list Event) : Hook :=
  foldl (step p) st es.

(** The hook after the mount effect has run [connect()]. *)
Definition mounted (p : Props) : Hook := connect p unmounted.

(** An event that neither is a successful open nor a manual reconnect. *)
Definition passive (e : Event) : bool :=
  match e with
  | Opened _ | Reconnect => false
  | _ => true
  end.

(** A passive event other than a clean close. *)
Definition failure (e : Event) : bool :=
  match e with
  | Closed _ false | Errored _ | TimerFired _ => true
  | _ => false
  end.

(** The number of unclean closes among the events. *)
Fixpoint unclean_closes (es : list Event) : nat :=
  match es with
  | [] => 0
  | Closed _ false :: rest => S (unclean_closes rest)
  | _ :: rest => unclean_closes rest
  end.

Definition is_exhaustion_notice (t : Toast) : bool :=
  match t with
  | ReconnectFailed _ => true
  | _ => false
  end.

(** [getConnectionStatus]: the text of [connectionStatus]. *)
Definition getConnectionStatus (st : Hook) : string :=
  match readyState st with
  | CONNECTING => "connecting"
  | OPEN => "open"
  | CLOSING => "closing"
  | CLOSED => "closed"
  end.

(** What the open and close events of a history leave in the React state,
    starting from [r]. *)
Fixpoint last_transition (r : ReadyState) (es : list Event) : ReadyState :=
  match es with
  | [] => r
  | Opened _ :: rest => last_transition OPEN rest
  | Closed _ _ :: rest => last_transition CLOSED rest
  | _ :: rest => last_transition r rest
  end.

(** The outcome of [sendMessage]. *)
Inductive Sending :=
| Sent (frame : string)   (* [socket.current.send(frame)] *)
| NotConnected.           (* console.error and
                             toast.error("Cannot send message: WebSocket is not connected") *)

Section Sending.
(** A message is a string or an object, which [JSON.stringify] turns into
    text. *)
Variable Obj : Type.
Variable JSON_stringify : Obj → string.

Definition sendMessage (message : string + Obj) (st : Hook) : Sending :=
  match current_state st with
  | Some OPEN =>
      Sent (match message with
            | inl text => text
            | inr o => JSON_stringify o
            end)
  | _ => NotConnected
  end.

End Sending.

(** The cleanup of the mount effect: clear the pending timeout, close the
    socket. *)
Definition cleanup (st : Hook) : Hook :=
  close_current
    match reconnectTimeoutRef st with
    | Some t => clearTimeout t st
    | None => st
    end.

(** Every pending timeout is the one [reconnectTimeoutRef] holds. *)
Definition timers_tracked (st : Hook) : Prop :=
  ∀ t d, timers st !! t = Some d → reconnectTimeoutRef st = Some t.

End Transport.

(** ** Concrete records used by the scenarios *)

Module Scenario.
Import Tracking.

Definition baghdad : Location := mkLocation (Some 33.3152%float) (Some 44.3661%float).
Definition moved : Location := mkLocation (Some 33.3252%float) (Some 44.3761%float).

(** The first record of [mockDrivers], located at [loc] and stamped at [t]. *)
Definition john_at (loc : Location) (t : Z) : Driver :=
  {| id := "1"; name := "John Doe"; vehicle := "Delivery Van"; status := active;
     location := loc; prevLocation := None;
     phone := Some "+964 750 123 4567";
     currentDelivery :=
       Some (mkDelivery "del-123" "Karrada, Baghdad, Iraq" "2026-01-01T00:15:00.000Z");
     lastUpdate := Some t |}.

Definition john (t : Z) : Driver := john_at baghdad t.

(** The record [processFlutterUpdate] builds for a message without any of
    its fields. *)
Definition unknown_driver (now : Z) : Driver :=
  {| id := Store.flutter_id now; name := "Unknown Driver";
     vehicle := "Unknown Vehicle"; status := active;
     location := mkLocation None None; prevLocation := None;
     phone := Some "Unknown"; currentDelivery := None; lastUpdate := Some now |}.

(** The second record of [mockDrivers], with status [st]. *)
Definition jane (st : Status) (t : Z) : Driver :=
  {| id := "2"; name := "Jane Smith"; vehicle := "Scooter"; status := st;
     location := moved; prevLocation := None;
     phone := Some "+964 770 987 6543";
     currentDelivery :=
       Some (mkDelivery "del-456" "Mansour, Baghdad, Iraq" "2026-01-01T00:08:00.000Z");
     lastUpdate := Some t |}.

Definition empty_message (type : string) : WebSocketMessage :=
  mkMessage (Some type) None None None None None None None.

(** [{ type: "drivers_list", drivers: l }] *)
Definition drivers_list (l : list Driver) : WebSocketMessage :=
  mkMessage (Some "drivers_list") None (Some l) None None None None None.

(** [{ type: "driver_location_update", id, lat, lng }] *)
Definition flat_update (i : string) (la ln : float) : WebSocketMessage :=
  mkMessage (Some "driver_location_update") None None (Some la) (Some ln)
            None None (Some i).

(** [{ type: "driver_location_update", driver: d }] *)
Definition nested_update (d : Driver) : WebSocketMessage :=
  mkMessage (Some "driver_location_update") (Some d) None None None None None None.

(** Lower case on the letters A to Z, as [toLowerCase] acts on them. *)
Definition lower_char (c : Ascii.ascii) : Ascii.ascii :=
  let n := Ascii.nat_of_ascii c in
  if ((65 <=? n)%nat && (n <=? 90)%nat)%bool
  then Ascii.ascii_of_nat (n + 32) else c.

Fixpoint lower_ascii (s : string) : string :=
  match s with
  | EmptyString => EmptyString
  | String c rest => String (lower_char c) (lower_ascii rest)
  end.

(** A clock for dates written as a number of milliseconds. *)
Definition millis (s : string) : option Z :=
  if String.eqb s "1700000900000" then Some 1700000900000 else None.

End Scenario.

(** * Properties *)

(** ** Staleness *)

Module StalenessFacts.
Import Tracking Staleness.

Lemma isDriverStale_true now d :
  isDriverStale now d = true ↔
  ∃ t, lastUpdate d = Some t ∧ t ≠ 0 ∧ now - t > 120000.
Proof.
  unfold isDriverStale. destruct (lastUpdate d) as [t|].
  - destruct (Z.eqb_spec t 0) as [->|Hne].
    + split; [done | intros (t & [= <-] & Hne & _); done].
    + rewrite Z.ltb_lt. split.
      * intros H. exists t. repeat split; [done | lia].
      * intros (t' & [= <-] & _ & H). lia.
  - split; [done | intros (t & [=] & _)].
Qed.

(** C10, as the code has it: the check is false when [lastUpdate] is
    absent or is the number 0 (both falsy); for any other timestamp it is
    true exactly when [now - lastUpdate > 120000].  Hence it is false at a
    difference of exactly 120000, true at any larger one, and monotone in
    the difference over the timestamps it does not skip. *)
Theorem isDriverStale_threshold :
  (∀ now d, lastUpdate d = None → isDriverStale now d = false) ∧
  (∀ now d, lastUpdate d = Some 0 → isDriverStale now d = false) ∧
  (∀ now d t, lastUpdate d = Some t → t ≠ 0 →
     (isDriverStale now d = true ↔ now - t > 120000)) ∧
  (∀ now d t, lastUpdate d = Some t → now - t = 120000 →
     isDriverStale now d = false) ∧
  (∀ now1 now2 d1 d2 t1 t2,
     lastUpdate d1 = Some t1 → lastUpdate d2 = Some t2 → t2 ≠ 0 →
     now1 - t1 ≤ now2 - t2 →
     isDriverStale now1 d1 = true → isDriverStale now2 d2 = true).
Proof.
  split_and!.
  - intros now d H. unfold isDriverStale. by rewrite H.
  - intros now d H. unfold isDriverStale. by rewrite H.
  - intros now d t H Hne. rewrite isDriverStale_true. split.
    + intros (t' & Ht' & _ & Hgt). congruence.
    + intros Hgt. eauto.
  - intros now d t H Hd. apply not_true_is_false. intros Hs.
    apply isDriverStale_true in Hs as (t' & Ht' & _ & Hgt).
    assert (t' = t) by congruence. lia.
  - intros now1 now2 d1 d2 t1 t2 H1 H2 Hne Hle Hs.
    apply isDriverStale_true in Hs as (t' & Ht' & _ & Hgt).
    assert (t' = t1) by congruence. subst t'.
    apply isDriverStale_true. exists t2. repeat split; [done..| lia].
Qed.

Lemma isDriverStale_threshold_witness :
  isDriverStale 1700000120001 (Scenario.john 1700000000000) = true
  ∧ isDriverStale 1700000120000 (Scenario.john 1700000000000) = false.
Proof.
  pose proof isDriverStale_threshold as (_ & _ & Hiff & Hat & _).
  split.
  - apply (Hiff 1700000120001 (Scenario.john 1700000000000) 1700000000000);
      [reflexivity | lia | lia].
  - apply (Hat 1700000120000 (Scenario.john 1700000000000) 1700000000000);
      [reflexivity | lia].
Defined.

(** C10 as stated fails on a driver stamped [lastUpdate = 0]: it has a
    timestamp, [now - lastUpdate] exceeds 120000, and the check is false. *)
Lemma isDriverStale_zero_timestamp :
  let now := 1700000000000 in
  let d := Scenario.john 0 in
  lastUpdate d = Some 0 ∧ now - 0 > 120000 ∧ isDriverStale now d = false.
Proof. repeat split. Qed.

End StalenessFacts.

(** ** Driver store *)

Module StoreFacts.
Import Tracking Store.

Lemma findIndex_None i l : findIndex i l = None ↔ i ∉ ids l.
Proof.
  unfold findIndex, ids. rewrite list_find_None, Forall_forall, list_elem_of_fmap.
  split.
  - intros H (d & -> & Hd). by apply (H d).
  - intros H d Hd Heq. apply H. eauto.
Qed.

Lemma findIndex_Some i l k d :
  findIndex i l = Some (k, d) →
  l !! k = Some d ∧ id d = i ∧ ∀ j y, l !! j = Some y → (j < k)%nat → id y ≠ i.
Proof. unfold findIndex. by rewrite list_find_Some. Qed.


Lemma ids_overwrite l k d x :
  l !! k = Some d → id x = id d → ids (<[k := x]> l) = ids l.
Proof.
  intros Hk Hid. unfold ids. rewrite list_fmap_insert.
  apply list_insert_id. by rewrite list_lookup_fmap, Hk, Hid.
Qed.

Lemma ids_snoc l d : ids (l ++ [d]) = ids l ++ [id d].
Proof. unfold ids. by rewrite fmap_app. Qed.

Lemma NoDup_ids_snoc l d : NoDup (ids l) → id d ∉ ids l → NoDup (ids (l ++ [d])).
Proof.
  intros Hl Hd. rewrite ids_snoc. apply NoDup_app. split_and!; [done| |].
  - intros x Hx Hx'. apply list_elem_of_singleton in Hx'. by subst.
  - apply NoDup_singleton.
Qed.


(** [updateDriverLocation] never changes the ids already stored, and adds
    one only when it is new. *)
Lemma updateDriverLocation_NoDup now upd prev :
  NoDup (ids prev) → NoDup (ids (updateDriverLocation now upd prev).1).
Proof.
  intros Hnd. unfold updateDriverLocation.
  destruct (findIndex (id upd) prev) as [[k old]|] eqn:E; simpl.
  - apply findIndex_Some in E as (Hk & Hid & _).
    by erewrite ids_overwrite.
  - apply NoDup_ids_snoc; [done|]. by apply findIndex_None.
Qed.

Lemma ids_moveDrivers now rnd k l : ids (moveDrivers now rnd k l) = ids l.
Proof.
  revert k. induction l as [|d l IH]; intros k; [done|].
  simpl. unfold moveDriver.
  destruct (status d); simpl; by rewrite IH.
Qed.

(** A message typed [driver_location_update] always takes the first branch
    of [onMessage], whatever else it carries. *)
Lemma onMessage_location_update now drivers data :
  m_type data = Some "driver_location_update" →
  onMessage now drivers (ParsedObject data)
  = processFlutterUpdate now drivers data drivers.
Proof.
  intros H. unfold onMessage, type_is. by rewrite bool_decide_eq_true_2.
Qed.

Lemma handle_current now drivers raw :
  handle now drivers raw drivers = onMessage now drivers raw.
Proof. done. Qed.


Lemma processFlutterUpdate_known now drivers data prev i k found :
  m_id data = Some i → JS.truthy i = true → findIndex i drivers = Some (k, found) →
  processFlutterUpdate now drivers data prev
  = updateDriverLocation now
      {| id := id found;
         name := JS.or_str (m_name data) (name found);
         vehicle := vehicle found;
         status := active;
         location := mkLocation (m_lat data) (m_lng data);
         prevLocation := prevLocation found;
         phone := JS.or_opt (m_phone data) (phone found);
         currentDelivery := currentDelivery found;
         lastUpdate := Some now |} prev.
Proof. intros Hi Ht Hf. unfold processFlutterUpdate. by rewrite Hi, Ht, Hf. Qed.

Lemma processFlutterUpdate_new now drivers data prev :
  has_id data = false ∨ (∃ i, m_id data = Some i ∧ i ∉ ids drivers) →
  processFlutterUpdate now drivers data prev
  = (prev ++ [ {| id := JS.or_str (m_id data) (flutter_id now);
                  name := JS.or_str (m_name data) "Unknown Driver";
                  vehicle := "Unknown Vehicle";
                  status := active;
                  location := mkLocation (m_lat data) (m_lng data);
                  prevLocation := None;
                  phone := Some (JS.or_str (m_phone data) "Unknown");
                  currentDelivery := None;
                  lastUpdate := Some now |} ],
     [NewDriverConnected (JS.or_str (m_name data) "Unknown Driver")]).
Proof.
  intros H. unfold processFlutterUpdate, has_id in *.
  destruct (m_id data) as [i|]; [|done].
  destruct (JS.truthy i) eqn:Et; [|done].
  destruct H as [H|(j & [= <-] & Hj)]; [done|].
  by rewrite (proj2 (findIndex_None _ _) Hj).
Qed.



(** A flat update keeps the ids of the state free of repetitions when the
    id it brings is new to the state: one it synthesises, or one the closure
    would have found had the state held it. *)
Lemma processFlutterUpdate_NoDup now snapshot data prev :
  NoDup (ids prev) →
  (has_id data = false → flutter_id now ∉ ids prev) →
  (∀ i, m_id data = Some i → JS.truthy i = true →
        i ∈ ids prev → i ∈ ids snapshot) →
  NoDup (ids (processFlutterUpdate now snapshot data prev).1).
Proof.
  intros Hnd Hfresh Hknown. unfold processFlutterUpdate, has_id in *.
  destruct (m_id data) as [i|] eqn:Ei; simpl.
  - destruct (JS.truthy i) eqn:Et.
    + destruct (findIndex i snapshot) as [[k found]|] eqn:E.
      * by apply updateDriverLocation_NoDup.
      * simpl. apply NoDup_ids_snoc; [done|]. simpl.
        apply findIndex_None in E. intros Hin. apply E. by apply (Hknown i).
    + simpl. apply NoDup_ids_snoc; [done|]. simpl. by apply Hfresh.
  - apply NoDup_ids_snoc; [done|]. simpl. by apply Hfresh.
Qed.

Lemma settle_NoDup prev h :
  NoDup (ids prev) → sound prev h → NoDup (ids (settle prev h)).
Proof.
  intros Hnd Hok. destruct h as [now snapshot raw|now d|now rnd]; simpl.
  - destruct raw as [| | |data]; simpl; try done.
    destruct Hok as (Hlist & Hfresh & Hknown). unfold type_is.
    destruct (decide (m_type data = Some "driver_location_update")) as [Ht|Ht].
    + rewrite bool_decide_eq_true_2 by done.
      apply processFlutterUpdate_NoDup; auto.
    + rewrite !bool_decide_eq_false_2 by done. simpl.
      destruct (decide (m_type data = Some "drivers_list")) as [Hl|Hl].
      * rewrite bool_decide_eq_true_2 by done. simpl.
        destruct (m_drivers data) as [l|] eqn:El; simpl; [|done]. by apply Hlist.
      * by rewrite bool_decide_eq_false_2 by done.
  - by apply updateDriverLocation_NoDup.
  - by rewrite ids_moveDrivers.
Qed.

(** The two revisions keep the same ids: the earlier one differs in
    [lastUpdate] only. *)
Lemma findIndex_same_ids i l l' :
  ids l = ids l' →
  (findIndex i l = None ∧ findIndex i l' = None)
  ∨ ∃ k d d', findIndex i l = Some (k, d) ∧ findIndex i l' = Some (k, d').
Proof.
  revert l'. induction l as [|a l IH]; intros [|a' l'] H; try discriminate H.
  { by left. }
  injection H as Ha Hl. unfold findIndex in *. simpl.
  destruct (decide (id a = i)) as [E|E], (decide (id a' = i)) as [E'|E'];
    try congruence.
  - right. eauto.
  - destruct (IH l' Hl) as [[E1 E2]|(k & d & d' & E1 & E2)];
      rewrite E1, E2; [by left|right]; simpl; eauto.
Qed.

Lemma earlier_updateDriverLocation_ids now upd upd' prev prev' :
  id upd' = id upd → ids prev' = ids prev →
  ids (Earlier.updateDriverLocation upd' prev').1
  = ids (updateDriverLocation now upd prev).1.
Proof.
  intros Hu Hp. unfold Earlier.updateDriverLocation, updateDriverLocation.
  rewrite Hu.
  destruct (findIndex_same_ids (id upd) prev' prev Hp)
    as [[-> ->]|(k & d' & d & -> & ->)]; simpl.
  - by rewrite !ids_snoc, Hp, Hu.
  - unfold ids in *. rewrite !list_fmap_insert. simpl. by rewrite Hp, Hu.
Qed.

Lemma earlier_moveDrivers_ids rnd k l : ids (Earlier.moveDrivers rnd k l) = ids l.
Proof.
  revert k. induction l as [|d l IH]; intros k; [done|].
  simpl. unfold Earlier.moveDriver.
  destruct (status d); simpl; by rewrite IH.
Qed.

Lemma earlier_settle_ids prev prev' h :
  ids prev' = ids prev → ids (Earlier.settle prev' h) = ids (settle prev h).
Proof.
  intros Hp. destruct h as [now snapshot raw|now d|now rnd]; simpl.
  - destruct raw as [| | |data]; simpl; try done.
    destruct (type_is data "driver_location_update"); simpl.
    + unfold Earlier.processFlutterUpdate, processFlutterUpdate.
      destruct (match m_id data with
                | Some i => if JS.truthy i then findIndex i snapshot else None
                | None => None
                end) as [[k found]|].
      * by apply earlier_updateDriverLocation_ids.
      * simpl. by rewrite !ids_snoc, Hp.
    + by destruct (guard (type_is data "drivers_list") (m_drivers data)).
  - by apply earlier_updateDriverLocation_ids.
  - by rewrite earlier_moveDrivers_ids, ids_moveDrivers.
Qed.

Lemma earlier_settle_all_ids prev prev' hs :
  ids prev' = ids prev →
  ids (Earlier.settle_all prev' hs) = ids (settle_all prev hs).
Proof.
  revert prev prev'. induction hs as [|h hs IH]; intros prev prev' Hp; [done|].
  simpl. apply IH. by apply earlier_settle_ids.
Qed.

Ltac by_evaluation := apply (bool_decide_unpack _); vm_compute; exact I.

(** C1, as the code has it: a [drivers_list] message carrying an array
    replaces the store by that array, record for record.  Every stored id
    that the array lacks is gone; each record keeps the [prevLocation] and
    [location] the message gave it, and nothing is carried over from the
    record previously stored under the same id. *)
Theorem drivers_list_replaces_store now drivers data l :
  m_type data = Some "drivers_list" → m_drivers data = Some l →
  let after := (onMessage now drivers (ParsedObject data)).1 in
  onMessage now drivers (ParsedObject data) = (l, []) ∧
  (∀ old, old ∈ drivers → id old ∉ ids l → id old ∉ ids after) ∧
  (∀ k d, l !! k = Some d →
     ∃ r, after !! k = Some r ∧ r = d ∧ prevLocation r = prevLocation d).
Proof.
  intros Ht Hl after.
  assert (onMessage now drivers (ParsedObject data) = (l, [])) as E.
  { unfold onMessage, type_is.
    rewrite bool_decide_eq_false_2 by (rewrite Ht; intros H; discriminate H).
    rewrite bool_decide_eq_true_2 by done. simpl. by rewrite Hl. }
  subst after. rewrite E. simpl. split_and!; [done|auto|eauto].
Qed.

Lemma drivers_list_replaces_store_witness :
  let incoming := Scenario.john_at Scenario.moved 1700000003000 in
  onMessage 1700000003000 [Scenario.john 1700000000000]
    (ParsedObject (Scenario.drivers_list [incoming])) = ([incoming], []).
Proof.
  intros incoming.
  apply (drivers_list_replaces_store 1700000003000 [Scenario.john 1700000000000]
           (Scenario.drivers_list [incoming]) [incoming]); reflexivity.
Defined.

(** C1 as stated fails: driver "1" is in the store and in the new list, the
    new record carries no [prevLocation], and after the full-list update its
    [prevLocation] is still absent instead of the location stored before. *)
Lemma drivers_list_keeps_no_prior_location :
  let prior := Scenario.john 1700000000000 in
  let incoming := Scenario.john_at Scenario.moved 1700000003000 in
  let after := (onMessage 1700000003000 [prior]
                  (ParsedObject (Scenario.drivers_list [incoming]))).1 in
  id incoming ∈ ids [prior] ∧ prevLocation incoming = None ∧
  after = [incoming] ∧
  ∀ r, r ∈ after → id r = id prior ∧ prevLocation r ≠ Some (location prior).
Proof.
  simpl. split_and!; [by left|done|done|].
  intros r Hr. apply list_elem_of_singleton in Hr. by subst r.
Qed.

(** C2 fails on the code: a message of type [driver_location_update] that
    nests a full [Driver] under [driver] is handled as a flat update.  For
    the stored driver "1" the nested record is ignored, a record with a
    synthesised id and no coordinates is appended and announced, and the
    result differs from the one of [updateDriverLocation]. *)
Theorem nested_driver_update_takes_flat_path :
  let now := 1700000003000 in
  let prior := Scenario.john 1700000000000 in
  let d := Scenario.john_at Scenario.moved 1700000003000 in
  onMessage now [prior] (ParsedObject (Scenario.nested_update d))
  = ([prior; Scenario.unknown_driver now], [NewDriverConnected "Unknown Driver"])
  ∧ updateDriverLocation now d [prior]
    = ([ {| id := "1"; name := "John Doe"; vehicle := "Delivery Van";
            status := active; location := Scenario.moved;
            prevLocation := Some Scenario.baghdad;
            phone := Some "+964 750 123 4567";
            currentDelivery := currentDelivery prior;
            lastUpdate := Some now |} ], [])
  ∧ (onMessage now [prior] (ParsedObject (Scenario.nested_update d))).1
    ≠ (updateDriverLocation now d [prior]).1.
Proof.
  split_and!; [reflexivity|reflexivity|].
  intros H. apply (f_equal length) in H. vm_compute in H. discriminate.
Qed.






(** C5, as the code has it: along any sequence of reconcile operations in
    which every replacement list is free of repeated ids, every id
    synthesised for an update without id is not yet stored, and every flat
    update that names a stored id is handled by a closure whose snapshot
    holds that id too, a store without repeated ids stays without repeated
    ids, in the revision that records [lastUpdate] and in the one before
    it. *)
Theorem store_ids_stay_unique prev hs :
  NoDup (ids prev) → sound_run prev hs →
  NoDup (ids (settle_all prev hs)) ∧ NoDup (ids (Earlier.settle_all prev hs)).
Proof.
  intros Hnd Hok.
  assert (NoDup (ids (settle_all prev hs))) as H.
  { revert prev Hnd Hok. induction hs as [|h hs IH]; intros prev Hnd Hok; [done|].
    destruct Hok as [Hh Hrest]. simpl. apply IH; [|done].
    by apply settle_NoDup. }
  split; [done|]. by rewrite (earlier_settle_all_ids prev prev hs).
Qed.

Lemma store_ids_stay_unique_witness :
  let t := 1700000000000 in
  let seed := [Scenario.john t] in
  let hs :=
    [ Received (t + 3000) seed
        (ParsedObject (Scenario.flat_update "1" 33.3252 44.3761));
      Received (t + 4000) seed
        (ParsedObject (Scenario.flat_update "7" 33.3 44.4));
      Received (t + 5000) seed
        (ParsedObject (Scenario.empty_message "driver_location_update"));
      Patched (t + 6000) (Scenario.john_at Scenario.moved t);
      Ticked (t + 7000) (λ _, 0.25%float);
      Received (t + 8000) seed
        (ParsedObject (Scenario.drivers_list [Scenario.john t])) ] in
  NoDup (ids (settle_all seed hs)) ∧ NoDup (ids (Earlier.settle_all seed hs)).
Proof.
  intros t seed hs. apply store_ids_stay_unique.
  - by_evaluation.
  - simpl. split_and!; try done; try discriminate.
    + intros _ _. by_evaluation.
    + intros _ l [= <-]. by_evaluation.
Defined.

(** C5 as stated fails: a replacement list that repeats an id is stored as
    it is; two updates without id handled within the same millisecond get the
    same synthesised id; and two updates for the same new id handled by one
    closure are both appended.  So it is in both revisions. *)
Lemma duplicate_ids_reach_the_store :
  let t := 1700000000000 in
  let seed := [Scenario.john t] in
  let twice :=
    [Received t []
       (ParsedObject (Scenario.drivers_list [Scenario.john t; Scenario.john t]))] in
  let same_ms :=
    [Received t []
       (ParsedObject (Scenario.empty_message "driver_location_update"));
     Received t [Scenario.unknown_driver t]
       (ParsedObject (Scenario.empty_message "driver_location_update"))] in
  let same_closure :=
    [Received (t + 3000) seed (ParsedObject (Scenario.flat_update "7" 33.3 44.4));
     Received (t + 3001) seed (ParsedObject (Scenario.flat_update "7" 33.3 44.4))] in
  NoDup (ids []) ∧ NoDup (ids seed) ∧
  ¬ NoDup (ids (settle_all [] twice)) ∧
  ¬ NoDup (ids (settle_all [] same_ms)) ∧
  ids (settle_all seed same_closure) = ["1"; "7"; "7"] ∧
  ¬ NoDup (ids (Earlier.settle_all [] twice)) ∧
  ¬ NoDup (ids (Earlier.settle_all [] same_ms)) ∧
  ids (Earlier.settle_all seed same_closure) = ["1"; "7"; "7"].
Proof. split_and!; by_evaluation. Qed.

(** C6, as the code has it: a frame that does not decode (or decodes to
    [null]) leaves the store as it was and logs an error; a frame that
    decodes to anything whose type is neither [driver_location_update] nor
    [drivers_list], or to a [drivers_list] without [drivers], leaves the
    store as it was and reports nothing.  The handler returns on every
    payload. *)
Theorem undecodable_and_unrecognised_are_dropped now drivers :
  onMessage now drivers Unparsable = (drivers, [ParseErrorLogged]) ∧
  onMessage now drivers ParsedNull = (drivers, [ParseErrorLogged]) ∧
  onMessage now drivers ParsedScalar = (drivers, []) ∧
  (∀ data,
     m_type data ≠ Some "driver_location_update" →
     m_type data ≠ Some "drivers_list" →
     onMessage now drivers (ParsedObject data) = (drivers, [])) ∧
  (∀ data,
     m_type data = Some "drivers_list" → m_drivers data = None →
     onMessage now drivers (ParsedObject data) = (drivers, [])).
Proof.
  split_and!; try reflexivity.
  - intros data H1 H2. unfold onMessage, type_is.
    by rewrite !bool_decide_eq_false_2 by done.
  - intros data Ht Hd. unfold onMessage, type_is.
    rewrite bool_decide_eq_false_2 by (rewrite Ht; intros H; discriminate H).
    simpl. by rewrite Hd, bool_decide_eq_true_2 by done.
Qed.

Lemma undecodable_and_unrecognised_are_dropped_witness :
  let st := [Scenario.john 1700000000000] in
  onMessage 1700000003000 st (ParsedObject (Scenario.empty_message "ping")) = (st, [])
  ∧ onMessage 1700000003000 st (ParsedObject (Scenario.empty_message "drivers_list"))
    = (st, []).
Proof.
  intros st.
  pose proof (undecodable_and_unrecognised_are_dropped 1700000003000 st)
    as (_ & _ & _ & Hother & Hlist).
  split.
  - apply Hother; intros H; discriminate H.
  - apply Hlist; reflexivity.
Defined.

(** C6 as stated fails: a [driver_location_update] without [lat] and [lng]
    is not dropped.  On the empty store it adds a record without coordinates
    and reports no error. *)
Lemma update_without_coordinates_is_stored :
  let now := 1700000003000 in
  let data := Scenario.empty_message "driver_location_update" in
  m_lat data = None ∧ m_lng data = None ∧
  onMessage now [] (ParsedObject data)
  = ([Scenario.unknown_driver now], [NewDriverConnected "Unknown Driver"]) ∧
  (onMessage now [] (ParsedObject data)).1 ≠ [] ∧
  ParseErrorLogged ∉ (onMessage now [] (ParsedObject data)).2.
Proof.
  split_and!; try reflexivity.
  - intros H. discriminate H.
  - by_evaluation.
Qed.

End StoreFacts.

(** ** Marker animation *)

Module AnimatorFacts.
Import Animator.

Lemma easeInOut_one : easeInOut 1 = 1%float.
Proof. reflexivity. Qed.

(** The last frame of a run: when the progress is 1 the sample is
    [start + (end - start) * 1] on each axis and no frame is requested. *)
Lemma animate_last_frame r currentTime st :
  progress r currentTime = 1%float →
  sample r currentTime
  = ((startLng r + (endLng r - startLng r) * 1)%float,
     (startLat r + (endLat r - startLat r) * 1)%float)
  ∧ animate r currentTime st = setLngLat r (sample r currentTime) st.
Proof.
  intros Hp. unfold animate, sample. rewrite Hp, easeInOut_one. by split.
Qed.

(** C7, as the code has it: on every frame the sample is
    [from + (to - from) * eased(t)] on each axis, with
    [t = min(elapsed / duration, 1)], both computed in binary64.  On a frame
    where [t] is 1, as it is when [elapsed = duration = 3000], the eased
    value is 1, the sample is [from + (to - from) * 1], and the callback
    requests no further frame. *)
Theorem sample_follows_easing r currentTime :
  easeInOut = eased ∧
  progress r currentTime
  = Math_min ((currentTime - startTime r) / duration r)%float 1%float ∧
  sample r currentTime
  = (interpolate (startLng r) (endLng r) (progress r currentTime),
     interpolate (startLat r) (endLat r) (progress r currentTime)) ∧
  (∀ st, emitted (animate r currentTime st)
         = mkSample r (interpolate (startLng r) (endLng r) (progress r currentTime))
                      (interpolate (startLat r) (endLat r) (progress r currentTime))
           :: emitted st) ∧
  (∀ st, (progress r currentTime <? 1)%float = true →
         pending (animate r currentTime st) (next_frame st) r) ∧
  (duration r = 3000%float → (currentTime - startTime r)%float = 3000%float →
   progress r currentTime = 1%float) ∧
  (progress r currentTime = 1%float →
   eased (progress r currentTime) = 1%float ∧
   sample r currentTime
   = ((startLng r + (endLng r - startLng r) * 1)%float,
      (startLat r + (endLat r - startLat r) * 1)%float) ∧
   ∀ st, frames (animate r currentTime st) = frames st
         ∧ next_frame (animate r currentTime st) = next_frame st).
Proof.
  split_and!; try reflexivity.
  - intros st. unfold animate. by destruct (_ <? _)%float.
  - intros st Hlt. unfold animate, pending. rewrite Hlt. simpl.
    by rewrite lookup_insert_eq.
  - intros Hd He. unfold progress. by rewrite He, Hd.
  - intros Hp. split_and!.
    + by rewrite Hp.
    + by apply (animate_last_frame r currentTime initial).
    + intros st. by rewrite (proj2 (animate_last_frame r currentTime st Hp)).
Qed.

(** The run of the default duration from (33.3152, 44.3661) to
    (33.3252, 44.3761), one and a half seconds in and at its end. *)
Lemma sample_follows_easing_witness :
  let r := mkRun "1" 44.3661 33.3152 44.3761 33.3252 3000 1000 1 in
  progress r 2500 = 0.5%float ∧
  progress r 4000 = 1%float ∧
  sample r 4000 = (44.3761%float, 33.3252%float) ∧
  ∀ st, frames (animate r 4000 st) = frames st.
Proof.
  intros r.
  destruct (sample_follows_easing r 4000) as (_ & _ & _ & _ & _ & _ & Hlast).
  destruct Hlast as (_ & Hs & Hst); [reflexivity|].
  split_and!; [reflexivity | reflexivity | by rewrite Hs | apply Hst].
Defined.

(** C7 as stated fails on the last frame: a marker in Greenwich moved
    across the meridian, from longitude 0.0005 to -0.0007, ends at
    -0.0007000000000000001 when [elapsed = duration = 3000]. *)
Lemma last_sample_has_residual :
  let r := mkRun "1" 0.0005 51.4779 (-0.0007) 51.4779 3000 0 1 in
  progress r 3000 = 1%float ∧
  (sample r 3000).1 = (-0.0007000000000000001)%float ∧
  PrimFloat.eqb (sample r 3000).1 (endLng r) = false ∧
  (sample r 3000).1 ≠ endLng r.
Proof.
  intros r. split_and!; try reflexivity.
  intros H. apply (f_equal (λ x, PrimFloat.eqb x (endLng r))) in H.
  vm_compute in H. discriminate H.
Qed.

(** *** The bookkeeping of frame callbacks *)

Lemma consistent_initial : consistent initial.
Proof. constructor; unfold pending; simpl; intros h r H; by simplify_map_eq. Qed.

Lemma cancelAnimationFrame_pending h st h' r :
  pending (cancelAnimationFrame h st) h' r ↔ h' ≠ h ∧ pending st h' r.
Proof.
  unfold pending. simpl. rewrite lookup_delete_Some.
  split; intros [? ?]; split; done.
Qed.

Lemma cancelAnimationFrame_consistent h st :
  consistent st → consistent (cancelAnimationFrame h st).
Proof.
  intros [Ht Hh Hr].
  constructor; intros h' r H; apply cancelAnimationFrame_pending in H;
    destruct H as [_ H]; simpl; [by apply Ht|by eapply Hh|by eapply Hr].
Qed.

Lemma cancel_recorded_consistent id st :
  consistent st → consistent (cancel_recorded id st).
Proof.
  intros H. unfold cancel_recorded.
  destruct (markerAnimations st !! id); [by apply cancelAnimationFrame_consistent|done].
Qed.

(** Once the recorded callback is cancelled, nothing is pending for the
    marker. *)
Lemma cancel_recorded_clears id st h r :
  consistent st → pending (cancel_recorded id st) h r → markerId r ≠ id.
Proof.
  intros [Ht _ _] H Hid. unfold cancel_recorded in H.
  destruct (markerAnimations st !! id) as [h0|] eqn:E.
  - apply cancelAnimationFrame_pending in H as [Hne H].
    apply Ht in H. rewrite Hid, E in H. congruence.
  - apply Ht in H. rewrite Hid, E in H. discriminate H.
Qed.

Lemma request_frame_pending r st h' r' :
  pending (request_frame r st) h' r'
  ↔ (h' = next_frame st ∧ r' = r) ∨ (h' ≠ next_frame st ∧ pending st h' r').
Proof.
  unfold pending. simpl. rewrite lookup_insert_Some.
  split; (intros [[? ?]|[? ?]]; [left|right]); split; done.
Qed.

Lemma request_frame_consistent r st :
  consistent st →
  (∀ h' r', pending st h' r' → markerId r' ≠ markerId r) →
  (run r ≤ next_frame st)%positive →
  consistent (request_frame r st).
Proof.
  intros [Ht Hh Hr] Hclear Hrun.
  constructor; intros h' r' H; apply request_frame_pending in H; simpl;
    destruct H as [[-> ->]|[Hne H]].
  - by rewrite lookup_insert_eq.
  - rewrite lookup_insert_ne by (intros Heq; by apply (Hclear h' r')).
    by apply Ht.
  - lia.
  - apply Hh in H. lia.
  - lia.
  - apply Hr in H. lia.
Qed.


Lemma setLngLat_consistent r pos st :
  consistent st → consistent (setLngLat r pos st).
Proof. intros [Ht Hh Hr]. by constructor. Qed.

Lemma animateMarkerMovement_eq id sLng sLat eLng eLat dur now st :
  is_Some (markers st !! id) →
  animateMarkerMovement id sLng sLat eLng eLat dur now st
  = request_frame (mkRun id sLng sLat eLng eLat dur now (next_frame st))
                  (cancel_recorded id st).
Proof.
  intros [pos Hm]. unfold animateMarkerMovement. by rewrite Hm.
Qed.

Lemma cancel_recorded_next id st :
  next_frame (cancel_recorded id st) = next_frame st.
Proof. unfold cancel_recorded. by destruct (markerAnimations st !! id). Qed.

Lemma animateMarkerMovement_consistent id sLng sLat eLng eLat dur now st :
  consistent st →
  consistent (animateMarkerMovement id sLng sLat eLng eLat dur now st).
Proof.
  intros Hc. destruct (markers st !! id) as [pos|] eqn:Hm.
  - rewrite animateMarkerMovement_eq by eauto.
    apply request_frame_consistent.
    + by apply cancel_recorded_consistent.
    + intros h' r' H. simpl. by eapply cancel_recorded_clears.
    + simpl. rewrite cancel_recorded_next. lia.
  - unfold animateMarkerMovement. by rewrite Hm.
Qed.

Lemma removeMarker_consistent id st : consistent st → consistent (removeMarker id st).
Proof.
  intros Hc. unfold removeMarker.
  pose proof (cancel_recorded_consistent id st Hc) as [Ht Hh Hr].
  constructor; simpl; intros h r H.
  - rewrite lookup_delete_ne; [by apply Ht|].
    intros Heq. by apply (cancel_recorded_clears id st h r).
  - by eapply Hh.
  - by eapply Hr.
Qed.

Lemma frame_consistent h r currentTime st :
  consistent st → pending st h r →
  consistent (animate r currentTime (cancelAnimationFrame h st)).
Proof.
  intros Hc Hp.
  pose proof (cancelAnimationFrame_consistent h st Hc) as Hc'.
  unfold animate. destruct (_ <? _)%float; [|by apply setLngLat_consistent].
  apply request_frame_consistent; [by apply setLngLat_consistent| |].
  - intros h' r' H Hid. apply cancelAnimationFrame_pending in H as [Hne H].
    destruct Hc as [Ht _ _]. apply Ht in H, Hp. rewrite Hid in H. congruence.
  - simpl. destruct Hc as [_ _ Hr]. apply Hr in Hp. lia.
Qed.

Lemma step_consistent st e : consistent st → consistent (step st e).
Proof.
  intros Hc. destruct e as [id lng lat|id|id sLng sLat eLng eLat dur now|h t]; simpl.
  - destruct Hc as [Ht Hh Hr]. by constructor.
  - by apply removeMarker_consistent.
  - by apply animateMarkerMovement_consistent.
  - destruct (frames st !! h) as [r|] eqn:E; [|done]. by apply frame_consistent.
Qed.

Lemma exec_consistent st es : consistent st → consistent (exec st es).
Proof.
  revert st. induction es as [|e es IH]; intros st Hc; [done|].
  simpl. apply IH. by apply step_consistent.
Qed.


(** *** Runs older than a call never show up again *)

Lemma cancel_recorded_pending id st h r :
  pending (cancel_recorded id st) h r → pending st h r.
Proof.
  unfold cancel_recorded. destruct (markerAnimations st !! id); [|done].
  intros H. by apply cancelAnimationFrame_pending in H as [_ H].
Qed.

Lemma cancel_recorded_emitted id st :
  emitted (cancel_recorded id st) = emitted st.
Proof. unfold cancel_recorded. by destruct (markerAnimations st !! id). Qed.
















End AnimatorFacts.

(** ** Reconnect policy *)

Module TransportFacts.
Import Transport.
#[local] Open Scope nat_scope.

Lemma connect_frame p st :
  reconnectCount (connect p st) = reconnectCount st ∧
  scheduled (connect p st) = scheduled st ∧
  timers (connect p st) = timers st ∧
  readyState (connect p st) = readyState st ∧
  ∃ extra, toasts (connect p st) = toasts st ++ extra
           ∧ forallb (λ t, negb (is_exhaustion_notice t)) extra = true.
Proof.
  unfold connect.
  destruct (current_state st) as [[]|]; destruct (url_ok p); simpl;
    split_and!; try done;
    first [ by (exists []; rewrite app_nil_r) | by exists [ConnectFailed] ].
Qed.

(** What one unclean close does while the counter is below the budget. *)
Lemma onclose_unclean_below p st :
  reconnectCount st < reconnectAttempts p →
  let st' := onclose p false st in
  reconnectCount st' = S (reconnectCount st) ∧
  scheduled st' = scheduled st ++ [reconnectInterval p] ∧
  timers st' !! next_timer st = Some (reconnectInterval p) ∧
  reconnectTimeoutRef st' = Some (next_timer st) ∧
  toasts st'
  = toasts st ++ [ConnectionLost (S (reconnectCount st)) (reconnectAttempts p)].
Proof.
  intros Hlt. unfold onclose. simpl.
  rewrite bool_decide_eq_true_2 by done. simpl.
  replace (reconnectCount st + 1) with (S (reconnectCount st)) by lia.
  destruct (reconnectTimeoutRef st); simpl; by rewrite lookup_insert_eq.
Qed.

(** What a close does once the budget is used up, clean or not. *)
Lemma onclose_exhausted p wasClean st :
  reconnectAttempts p ≤ reconnectCount st →
  onclose p wasClean st
  = toast (ReconnectFailed (reconnectAttempts p)) (setReadyState CLOSED st).
Proof.
  intros Hle. unfold onclose. simpl.
  rewrite bool_decide_eq_false_2 by lia.
  rewrite andb_false_r. by rewrite bool_decide_eq_true_2.
Qed.

Lemma exec_failures_below p es : ∀ st,
  forallb failure es = true →
  reconnectCount st + unclean_closes es ≤ reconnectAttempts p →
  reconnectCount (exec p st es) = reconnectCount st + unclean_closes es ∧
  scheduled (exec p st es)
  = scheduled st ++ replicate (unclean_closes es) (reconnectInterval p) ∧
  ∃ extra, toasts (exec p st es) = toasts st ++ extra
           ∧ forallb (λ t, negb (is_exhaustion_notice t)) extra = true.
Proof.
  induction es as [|e es IH]; intros st Hes Hle; simpl in *.
  { rewrite Nat.add_0_r, app_nil_r. split_and!; try done.
    exists []. by rewrite app_nil_r. }
  apply andb_true_iff in Hes as [He Hes].
  destruct e as [s|s [|]|s|t|]; try discriminate He; simpl in *.
  - (* an unclean close *)
    destruct (onclose_unclean_below p (set_socket_state s CLOSED st))
      as (Hc & Hs & _ & _ & Ht); [simpl; lia|]. simpl in *.
    destruct (IH (onclose p false (set_socket_state s CLOSED st)) Hes)
      as (Hc' & Hs' & extra & Ht' & Hex); [rewrite Hc; lia|].
    rewrite Hc', Hs', Ht', Hc, Hs, Ht. split_and!.
    + lia.
    + by rewrite <- app_assoc.
    + eexists. rewrite <- app_assoc. split; [reflexivity|]. done.
  - (* an error *)
    destruct (IH (onerror st) Hes) as (Hc' & Hs' & extra & Ht' & Hex); [done|].
    rewrite Hc', Hs', Ht'. simpl. split_and!; try done.
    eexists. rewrite <- app_assoc. split; [reflexivity|]. done.
  - (* a timer *)
    destruct (timers st !! t); [|by apply IH].
    destruct (connect_frame p (clearTimeout t st))
      as (Hc & Hs & _ & _ & extra0 & Ht & Hex0). simpl in *.
    destruct (IH (connect p (clearTimeout t st)) Hes)
      as (Hc' & Hs' & extra & Ht' & Hex); [by rewrite Hc|].
    rewrite Hc', Hs', Ht', Hc, Hs, Ht. split_and!; try done.
    eexists. rewrite <- app_assoc. split; [reflexivity|].
    rewrite forallb_app. by rewrite Hex0, Hex.
Qed.

Lemma exec_passive_exhausted p es : ∀ st,
  forallb passive es = true →
  reconnectAttempts p ≤ reconnectCount st →
  reconnectCount (exec p st es) = reconnectCount st ∧
  scheduled (exec p st es) = scheduled st.
Proof.
  induction es as [|e es IH]; intros st Hes Hle; simpl in *; [done|].
  apply andb_true_iff in Hes as [He Hes].
  destruct e as [s|s w|s|t|]; try discriminate He; simpl.
  - rewrite onclose_exhausted by done.
    destruct (IH (toast (ReconnectFailed (reconnectAttempts p))
                    (setReadyState CLOSED (set_socket_state s CLOSED st))) Hes)
      as [-> ->]; done.
  - by destruct (IH (onerror st) Hes) as [-> ->].
  - destruct (timers st !! t); [|by apply IH].
    destruct (connect_frame p (clearTimeout t st)) as (Hc & Hs & _).
    simpl in *.
    destruct (IH (connect p (clearTimeout t st)) Hes) as [-> ->];
      [by rewrite Hc|done].
Qed.

Lemma reconnect_opens_socket p st :
  url_ok p = true →
  socket (reconnect p st) = Some (length (sockets st)) ∧
  current_state (reconnect p st) = Some CONNECTING.
Proof.
  intros Hurl. unfold reconnect.
  set (st1 := set_reconnectCount 0 (close_current st)).
  assert (length (sockets st1) = length (sockets st)) as Hlen.
  { unfold st1, close_current. simpl.
    destruct (socket st) as [s|]; [|done].
    destruct (current_state st) as [[]|]; simpl; by rewrite ?length_insert. }
  assert (current_state st1 ≠ Some OPEN ∧ current_state st1 ≠ Some CONNECTING)
    as [Ho Hc].
  { unfold st1, close_current, current_state.
    destruct (socket st) as [s|] eqn:Es; simpl; [|by rewrite Es].
    destruct (sockets st !! s) as [[]|] eqn:E; simpl; rewrite ?Es;
      rewrite ?list_lookup_insert_eq by (by eapply lookup_lt_Some);
      rewrite ?E; done. }
  clearbody st1. unfold connect.
  destruct (current_state st1) as [[]|]; try done;
    rewrite Hurl; unfold current_state; simpl;
    (split; [by rewrite Hlen | by rewrite list_lookup_middle]).
Qed.

(** C9, as the code has it.  The defaults are 5 attempts and 5000 ms.
    An unclean close below the budget schedules one reconnect after the
    interval and increments the counter; a clean close schedules nothing; an
    open resets the counter.  From a zero counter, as many unclean closes as
    the budget (with timers firing and errors in between) leave the counter
    at the budget with that many reconnects scheduled and no exhaustion
    notice yet.  From then on every close raises the exhaustion notice and
    schedules nothing, and no sequence of closes, errors and timers
    schedules anything.  [reconnect()] resets the counter, schedules
    nothing, leaves [connectionStatus] as it is and, when the URL is
    accepted, opens a new socket, which is connecting. *)
Theorem reconnect_policy (p : Props) :
  (∀ ok, reconnectAttempts (defaults ok) = 5 ∧ reconnectInterval (defaults ok) = 5000) ∧
  (∀ st s, reconnectCount st < reconnectAttempts p →
     let st' := step p st (Closed s false) in
     reconnectCount st' = S (reconnectCount st) ∧
     scheduled st' = scheduled st ++ [reconnectInterval p] ∧
     timers st' !! next_timer st = Some (reconnectInterval p)) ∧
  (∀ st s,
     let st' := step p st (Closed s true) in
     scheduled st' = scheduled st ∧ timers st' = timers st ∧
     reconnectCount st' = reconnectCount st) ∧
  (∀ st s, reconnectCount (step p st (Opened s)) = 0) ∧
  (∀ st es,
     reconnectCount st = 0 → forallb failure es = true →
     unclean_closes es = reconnectAttempts p →
     reconnectCount (exec p st es) = reconnectAttempts p ∧
     scheduled (exec p st es)
     = scheduled st ++ replicate (reconnectAttempts p) (reconnectInterval p) ∧
     ∃ extra, toasts (exec p st es) = toasts st ++ extra
              ∧ forallb (λ t, negb (is_exhaustion_notice t)) extra = true) ∧
  (∀ st, reconnectAttempts p ≤ reconnectCount st →
     (∀ s wasClean,
        let st' := step p st (Closed s wasClean) in
        scheduled st' = scheduled st ∧
        toasts st' = toasts st ++ [ReconnectFailed (reconnectAttempts p)]) ∧
     (∀ es, forallb passive es = true →
        scheduled (exec p st es) = scheduled st ∧
        reconnectCount (exec p st es) = reconnectCount st)) ∧
  (∀ st,
     reconnectCount (reconnect p st) = 0 ∧
     scheduled (reconnect p st) = scheduled st ∧
     readyState (reconnect p st) = readyState st ∧
     (url_ok p = true →
      socket (reconnect p st) = Some (length (sockets st)) ∧
      current_state (reconnect p st) = Some CONNECTING)).
Proof.
  split_and!.
  - done.
  - intros st s Hlt st'. subst st'. simpl.
    destruct (onclose_unclean_below p (set_socket_state s CLOSED st))
      as (Hc & Hs & Ht & _); [done|]. by split_and!.
  - intros st s st'. subst st'. simpl. unfold onclose. simpl.
    by destruct (bool_decide _).
  - done.
  - intros st es Hz Hes Hn.
    destruct (exec_failures_below p es st Hes) as (Hc & Hs & Ht); [lia|].
    rewrite Hc, Hs, Hz, Hn. by split_and!.
  - intros st Hle. split.
    + intros s wasClean st'. subst st'. simpl.
      by rewrite onclose_exhausted by done.
    + intros es Hes.
      by destruct (exec_passive_exhausted p es st Hes Hle) as [-> ->].
  - intros st. unfold reconnect.
    destruct (connect_frame p (set_reconnectCount 0 (close_current st)))
      as (Hc & Hs & _ & Hr & _).
    rewrite Hc, Hs, Hr. split_and!.
    + done.
    + unfold close_current. simpl.
      destruct (socket st); [|done]. by destruct (current_state st) as [[]|].
    + unfold close_current. simpl.
      destruct (socket st); [|done]. by destruct (current_state st) as [[]|].
    + apply reconnect_opens_socket.
Qed.

(** The first connection and the four that follow each fail: five unclean
    closes in a row, each followed by its reconnect timer but the last. *)
Lemma reconnect_policy_witness :
  let p := defaults true in
  let es := [Closed 0 false; TimerFired 1; Closed 1 false; TimerFired 2;
             Closed 2 false; TimerFired 3; Closed 3 false; TimerFired 4;
             Closed 4 false] in
  let st := exec p (mounted p) es in
  reconnectCount st = 5 ∧ scheduled st = [5000; 5000; 5000; 5000; 5000] ∧
  scheduled (step p st (Closed 5 false)) = scheduled st ∧
  reconnectCount (reconnect p st) = 0 ∧
  current_state (reconnect p st) = Some CONNECTING.
Proof.
  intros p es st.
  destruct (reconnect_policy p) as (_ & _ & _ & _ & Hbudget & Hdone & Hmanual).
  destruct (Hbudget (mounted p) es) as (Hc & Hs & _); try reflexivity.
  destruct (Hdone st) as [Hclose _]; [unfold st; rewrite Hc; simpl; lia|].
  destruct (Hmanual st) as (Hzero & _ & _ & Hopen).
  destruct Hopen as [_ Hconn]; [reflexivity|].
  split_and!; [exact Hc | exact Hs | apply Hclose | exact Hzero | exact Hconn].
Defined.

(** C9 as stated fails on the notice: after five consecutive unclean closes
    five reconnects are scheduled and no exhaustion notice has been raised;
    it is raised by the sixth close, when the fifth attempt has failed. *)
Lemma no_exhaustion_notice_after_five_closes :
  let p := defaults true in
  let es := [Closed 0 false; TimerFired 1; Closed 1 false; TimerFired 2;
             Closed 2 false; TimerFired 3; Closed 3 false; TimerFired 4;
             Closed 4 false] in
  let st := exec p (mounted p) es in
  unclean_closes es = 5 ∧
  scheduled st = [5000; 5000; 5000; 5000; 5000] ∧
  toasts st = [ConnectionLost 1 5; ConnectionLost 2 5; ConnectionLost 3 5;
               ConnectionLost 4 5; ConnectionLost 5 5] ∧
  (ReconnectFailed 5 ∉ toasts st) ∧
  toasts (exec p st [TimerFired 5; Closed 5 false])
  = toasts st ++ [ReconnectFailed 5].
Proof.
  split_and!; try (vm_compute; reflexivity).
  apply (bool_decide_unpack _). vm_compute. exact I.
Qed.

End TransportFacts.


(** ** More on the driver store *)

Module StoreMore.
Import Tracking Store StoreFacts.




Lemma updateDriverLocation_ids now upd prev :
  ∃ extra, ids (updateDriverLocation now upd prev).1 = ids prev ++ extra
           ∧ (length extra ≤ 1)%nat.
Proof.
  unfold updateDriverLocation.
  destruct (findIndex (id upd) prev) as [[k old]|] eqn:E; simpl.
  - apply findIndex_Some in E as (Hk & Hid & _).
    exists []. rewrite app_nil_r. split; [by erewrite ids_overwrite|simpl; lia].
  - exists [id upd]. by rewrite ids_snoc.
Qed.

(** X2.  Only a full-list replacement removes drivers: after any other
    operation the ids stored before are still there, in the same order, and
    at most one id has been added behind them. *)
Theorem only_replacement_removes drivers op :
  keeps_drivers op →
  ∃ extra, ids (reconcile drivers op) = ids drivers ++ extra
           ∧ (length extra ≤ 1)%nat.
Proof.
  intros Hop.
  assert (∃ extra, ids drivers = ids drivers ++ extra ∧ (length extra ≤ 1)%nat)
    as Hsame by (exists []; rewrite app_nil_r; split; [done|simpl; lia]).
  destruct op as [now raw|now d|now rnd]; simpl.
  - destruct raw as [| | |data]; simpl; try done.
    simpl in Hop. unfold type_is.
    destruct (decide (m_type data = Some "driver_location_update")) as [Ht|Ht].
    + rewrite bool_decide_eq_true_2 by done. unfold processFlutterUpdate.
      destruct (match m_id data with
                | Some i => if JS.truthy i then findIndex i drivers else None
                | None => None
                end) as [[k found]|].
      * apply updateDriverLocation_ids.
      * simpl. eexists [_]. by rewrite ids_snoc.
    + by rewrite !bool_decide_eq_false_2 by done.
  - apply updateDriverLocation_ids.
  - by rewrite ids_moveDrivers.
Qed.

Lemma only_replacement_removes_witness :
  ∃ extra,
    ids (reconcile [Scenario.john 1700000000000]
           (Message 1700000003000
              (ParsedObject (Scenario.flat_update "7" 33.3252 44.3761))))
    = ["1"] ++ extra ∧ (length extra ≤ 1)%nat.
Proof.
  apply (only_replacement_removes [Scenario.john 1700000000000]).
  simpl. intros H. discriminate H.
Defined.

Lemma moveDrivers_lookup now rnd : ∀ l k i d,
  l !! i = Some d →
  ∃ j, moveDrivers now rnd k l !! i
       = Some (moveDriver now (rnd j) (rnd (S j)) d).
Proof.
  induction l as [|x l IH]; intros k i d Hi; [done|].
  destruct i as [|i]; simpl in *.
  - injection Hi as ->. exists k. unfold moveDriver.
    by destruct (status d).
  - destruct (status x); simpl; by apply IH.
Qed.

Lemma moveDrivers_length now rnd : ∀ l k,
  length (moveDrivers now rnd k l) = length l.
Proof.
  induction l as [|x l IH]; intros k; [done|].
  simpl. destruct (status x); simpl; by rewrite IH.
Qed.

Lemma draws_before_S x l i :
  draws_before (S i) (x :: l)
  = ((if decide (status x = active) then 2 else 0) + draws_before i l)%nat.
Proof.
  unfold draws_before. simpl. rewrite filter_cons.
  destruct (decide (status x = active)); simpl; lia.
Qed.

(** Where the tick finds the driver at index [i], and with which two values
    of [Math.random()] it moves it. *)
Lemma moveDrivers_at now rnd : ∀ l k i d,
  l !! i = Some d →
  moveDrivers now rnd k l !! i
  = Some (moveDriver now (rnd (k + draws_before i l)%nat)
                         (rnd (S (k + draws_before i l))) d).
Proof.
  induction l as [|x l IH]; intros k i d Hi; [done|].
  destruct i as [|i].
  - simpl in Hi. injection Hi as ->. unfold draws_before. simpl.
    rewrite Nat.add_0_r. unfold moveDriver. by destruct (status d).
  - assert (∀ a b, a = b →
              Some (moveDriver now (rnd a) (rnd (S a)) d)
              = Some (moveDriver now (rnd b) (rnd (S b)) d)) as Hsame
      by (by intros a b ->).
    simpl in Hi. rewrite draws_before_S. simpl.
    destruct (decide (status x = active)) as [Ea|Ea].
    + rewrite Ea. simpl. rewrite (IH _ _ _ Hi). apply Hsame. lia.
    + destruct (status x) eqn:Es; [done| |]; simpl; rewrite (IH _ _ _ Hi);
        apply Hsame; lia.
Qed.

(** X3.  A simulated-motion tick keeps every driver at its place in the
    list with its id, name, vehicle, status, phone and delivery.  A driver
    that is not active is left exactly as it was.  An active one gets its old
    location as previous location, the tick's time as last update, and its
    latitude and longitude moved by [(Math.random() - 0.5) * 0.001] for the
    two values [Math.random()] returns next, two values having been drawn
    for each active driver before it. *)
Theorem tick_moves_active_drivers_only now rnd drivers i d :
  drivers !! i = Some d →
  let j := draws_before i drivers in
  length (settle drivers (Ticked now rnd)) = length drivers ∧
  ∃ d',
    settle drivers (Ticked now rnd) !! i = Some d' ∧
    id d' = id d ∧ name d' = name d ∧ vehicle d' = vehicle d ∧
    status d' = status d ∧ phone d' = phone d ∧
    currentDelivery d' = currentDelivery d ∧
    (status d ≠ active → d' = d) ∧
    (status d = active →
     prevLocation d' = Some (location d) ∧ lastUpdate d' = Some now ∧
     location d'
     = mkLocation
         (JS.add_num (lat (location d)) ((rnd j - 0.5) * 0.001)%float)
         (JS.add_num (lng (location d)) ((rnd (S j) - 0.5) * 0.001)%float)).
Proof.
  intros Hi j. simpl. split; [apply moveDrivers_length|].
  rewrite (moveDrivers_at now rnd drivers 0 i d Hi). simpl. fold j.
  eexists. split; [reflexivity|].
  unfold moveDriver. destruct (status d) eqn:Es; simpl; by split_and!.
Qed.

Lemma tick_moves_active_drivers_only_witness :
  let rnd := λ n : nat, match n with
                        | 2%nat => 0.75%float
                        | 3%nat => 0.25%float
                        | _ => 0.5%float
                        end in
  ∃ d', settle [Scenario.john 1700000000000;
                Scenario.jane active 1700000000000]
          (Ticked 1700000003000 rnd) !! 1%nat = Some d'
        ∧ prevLocation d' = Some Scenario.moved
        ∧ location d'
          = mkLocation (Some (33.3252 + (0.75 - 0.5) * 0.001)%float)
                       (Some (44.3761 + (0.25 - 0.5) * 0.001)%float).
Proof.
  intros rnd.
  destruct (tick_moves_active_drivers_only 1700000003000 rnd
              [Scenario.john 1700000000000; Scenario.jane active 1700000000000]
              1 (Scenario.jane active 1700000000000))
    as (_ & d' & Hd & _ & _ & _ & _ & _ & _ & _ & Hact); [reflexivity|].
  destruct Hact as (Hp & _ & Hl); [reflexivity|].
  exists d'. split_and!; [exact Hd | exact Hp | exact Hl].
Defined.

(** X4.  However many ticks run, a driver that is not active stays exactly
    as it was. *)
Theorem ticks_never_move_inactive_driver (ticks : list (Z * (nat → float)))
    drivers i d :
  drivers !! i = Some d → status d ≠ active →
  reconcile_all drivers ((λ t, Tick t.1 t.2) <$> ticks) !! i = Some d.
Proof.
  revert drivers. induction ticks as [|[now rnd] ticks IH];
    intros drivers Hi Hs; [done|].
  simpl. apply IH; [|done].
  destruct (moveDrivers_lookup now rnd drivers 0 i d Hi) as (j & ->).
  unfold moveDriver. by destruct (status d).
Qed.

Lemma ticks_never_move_inactive_driver_witness :
  let dave :=
    {| id := "3"; name := "Dave Wilson"; vehicle := "Truck"; status := inactive;
       location := mkLocation (Some 33.3052%float) (Some 44.3861%float);
       prevLocation := None; phone := Some "+964 780 456 7890";
       currentDelivery := None; lastUpdate := Some 1699999820000 |} in
  reconcile_all [Scenario.john 1700000000000; dave]
    ((λ t, Tick t.1 t.2) <$> [(1700000003000, λ _, 0.75%float);
                              (1700000006000, λ _, 0.25%float)]) !! 1%nat
  = Some dave.
Proof.
  intros dave.
  apply (ticks_never_move_inactive_driver
           [(1700000003000, λ _, 0.75%float); (1700000006000, λ _, 0.25%float)]
           [Scenario.john 1700000000000; dave] 1 dave);
    [reflexivity | intros H; discriminate H].
Defined.

Lemma flutter_id_inj a b : flutter_id a = flutter_id b → a = b.
Proof.
  unfold flutter_id. intros H. simpl in H. injection H as H.
  by apply (inj pretty).
Qed.

(** X5.  Updates without id that are handled at pairwise different clock
    readings get pairwise different ids: on a store without repeated ids that
    holds none of the ids to be synthesised, any run of such updates leaves
    the store without repeated ids. *)
Theorem idless_updates_at_distinct_times (tds : list (Z * WebSocketMessage))
    drivers :
  NoDup tds.*1 →
  Forall (λ td, m_type td.2 = Some "driver_location_update"
                ∧ has_id td.2 = false) tds →
  NoDup (ids drivers) →
  (∀ t, t ∈ tds.*1 → flutter_id t ∉ ids drivers) →
  NoDup (ids (reconcile_all drivers (idless_update <$> tds))) ∧
  length (reconcile_all drivers (idless_update <$> tds))
  = (length drivers + length tds)%nat.
Proof.
  revert drivers. induction tds as [|[t data] tds IH];
    intros drivers Ht Hd Hnd Hfresh.
  { simpl. split; [done|lia]. }
  rewrite !fmap_cons in *. apply NoDup_cons in Ht as [Ht Hts].
  apply Forall_cons in Hd as [[Hty Hid] Hd].
  change (reconcile_all drivers (idless_update (t, data) :: (idless_update <$> tds)))
    with (reconcile_all (onMessage t drivers (ParsedObject data)).1
            (idless_update <$> tds)).
  simpl in Ht, Hty, Hid, Hfresh.
  rewrite onMessage_location_update by done.
  rewrite processFlutterUpdate_new by by left.
  cbn [fst length].
  assert (JS.or_str (m_id data) (flutter_id t) = flutter_id t) as Eid.
  { unfold has_id, JS.or_str in *. destruct (m_id data); by rewrite ?Hid. }
  destruct (IH (drivers ++
      [ {| id := JS.or_str (m_id data) (flutter_id t);
           name := JS.or_str (m_name data) "Unknown Driver";
           vehicle := "Unknown Vehicle"; status := active;
           location := mkLocation (m_lat data) (m_lng data);
           prevLocation := None;
           phone := Some (JS.or_str (m_phone data) "Unknown");
           currentDelivery := None; lastUpdate := Some t |} ]))
    as [Hn Hl]; try done.
  - apply NoDup_ids_snoc; [done|]. simpl. rewrite Eid.
    apply Hfresh. by left.
  - intros t' Ht'. rewrite ids_snoc. simpl. rewrite Eid.
    intros Hin. apply elem_of_app in Hin as [Hin|Hin].
    + by apply (Hfresh t'); [right|].
    + apply list_elem_of_singleton in Hin. apply flutter_id_inj in Hin.
      by subst t'.
  - split; [done|]. rewrite Hl, length_app. simpl. lia.
Qed.

Lemma idless_updates_at_distinct_times_witness :
  let anon := Scenario.empty_message "driver_location_update" in
  NoDup (ids (reconcile_all [Scenario.john 1700000000000]
                (idless_update <$> [(1700000003000, anon); (1700000003001, anon)]))).
Proof.
  intros anon.
  apply (idless_updates_at_distinct_times
           [(1700000003000, anon); (1700000003001, anon)]
           [Scenario.john 1700000000000]).
  - by_evaluation.
  - repeat constructor.
  - by_evaluation.
  - intros t Ht. apply (bool_decide_unpack _).
    apply elem_of_cons in Ht as [->|Ht]; [by vm_compute|].
    apply list_elem_of_singleton in Ht as ->. by vm_compute.
Defined.

End StoreMore.


(** ** What the list shows *)

Module DisplayFacts.
Import Tracking Store StoreFacts StoreMore Display.

Lemma statusColour_stamped t now r :
  lastUpdate r = Some now → now ≠ 0 → status r = active →
  (t - now ≤ 120000 → statusColour t r = bg_green_500) ∧
  (120000 < t - now → statusColour t r = bg_red_500).
Proof.
  intros Hl Hn Hs. unfold statusColour, Staleness.isDriverStale.
  rewrite Hl, Hs. destruct (Z.eqb_spec now 0) as [|_]; [done|].
  change (2 * 60 * 1000) with 120000.
  split; intros H.
  - by rewrite (proj2 (Z.ltb_ge _ _)) by lia.
  - by rewrite (proj2 (Z.ltb_lt _ _)) by lia.
Qed.

(** X6.  Every [driver_location_update] handled at a time [now] other than
    0 leaves in the store a record stamped [now] and active (the driver the
    message names, when it names one), and that record is shown green for
    the next 120000 ms and red after them. *)
Theorem updated_driver_is_shown_fresh now drivers data t :
  m_type data = Some "driver_location_update" → now ≠ 0 →
  ∃ k r,
    (onMessage now drivers (ParsedObject data)).1 !! k = Some r ∧
    (∀ i, m_id data = Some i → JS.truthy i = true → id r = i) ∧
    lastUpdate r = Some now ∧ status r = active ∧
    (t - now ≤ 120000 → statusColour t r = bg_green_500) ∧
    (120000 < t - now → statusColour t r = bg_red_500).
Proof.
  intros Hty Hn. rewrite onMessage_location_update by done.
  assert ((∃ i k found, m_id data = Some i ∧ JS.truthy i = true
                        ∧ findIndex i drivers = Some (k, found))
          ∨ (has_id data = false ∨ ∃ i, m_id data = Some i ∧ i ∉ ids drivers))
    as [(i & k & found & Hi & Ht & Hf)|Hnew].
  { unfold has_id. destruct (m_id data) as [i|]; [|by right; left].
    destruct (JS.truthy i) eqn:Et; [|by right; left].
    destruct (findIndex i drivers) as [[k found]|] eqn:E.
    - left. by exists i, k, found.
    - right. right. exists i. split; [done|]. by apply findIndex_None. }
  - rewrite (processFlutterUpdate_known _ _ _ _ _ _ _ Hi Ht Hf).
    pose proof (findIndex_Some _ _ _ _ Hf) as (Hk & Hid & _).
    unfold updateDriverLocation. simpl. rewrite Hid, Hf. simpl.
    eexists k, _. split; [apply list_lookup_insert_eq; by eapply lookup_lt_Some|].
    split_and!; try done.
    + intros j Hj _. simpl. congruence.
    + by apply statusColour_stamped.
    + by apply statusColour_stamped.
  - rewrite processFlutterUpdate_new by done. simpl.
    eexists (length drivers), _. split; [apply list_lookup_middle; done|].
    split_and!; try done.
    + intros j Hj Ht. simpl. unfold JS.or_str. by rewrite Hj, Ht.
    + by apply statusColour_stamped.
    + by apply statusColour_stamped.
Qed.

Lemma updated_driver_is_shown_fresh_witness :
  ∃ r, (onMessage 1700000003000 [Scenario.john 1699999000000]
          (ParsedObject (Scenario.flat_update "1" 33.3252 44.3761))).1 !! 0%nat
       = Some r
     ∧ statusColour 1700000123000 r = bg_green_500
     ∧ statusColour 1700000123001 r = bg_red_500.
Proof.
  destruct (updated_driver_is_shown_fresh 1700000003000
              [Scenario.john 1699999000000]
              (Scenario.flat_update "1" 33.3252 44.3761) 1700000123000)
    as (k & r & Hk & _ & Hl & Hs & Hg & _); [reflexivity|lia|].
  vm_compute in Hk. destruct k as [|k]; [|by destruct k].
  exists r. split; [exact Hk|]. split; [apply Hg; lia|].
  by apply (statusColour_stamped 1700000123001 1700000003000 r); try lia.
Defined.

(** X7.  The label of the time left is "Arriving" when the date does not
    parse or the arrival is less than half a minute ahead (or past);
    otherwise it is "k min" for the whole number of minutes [k >= 1] nearest
    to the time left, a half rounding up. *)
Theorem minutes_remaining_label (getTime : string → option Z) now isoString :
  (getTime isoString = None →
   getMinutesRemaining getTime now isoString = "Arriving") ∧
  (∀ arrival, getTime isoString = Some arrival → arrival - now < 30000 →
   getMinutesRemaining getTime now isoString = "Arriving") ∧
  (∀ arrival, getTime isoString = Some arrival → 30000 ≤ arrival - now →
   ∃ k, 1 ≤ k ∧
        60000 * k - 30000 ≤ arrival - now < 60000 * k + 30000 ∧
        getMinutesRemaining getTime now isoString = pretty k +:+ " min").
Proof.
  unfold getMinutesRemaining, Math_round_div.
  change (2 * (1000 * 60)) with 120000. change (1000 * 60) with 60000.
  split_and!.
  - by intros ->.
  - intros a -> Hlt.
    assert ((2 * (a - now) + 60000) `div` 120000 ≤ 0) as H.
    { apply Z.lt_succ_r. apply Z.div_lt_upper_bound; lia. }
    by rewrite (proj2 (Z.ltb_ge _ _) H).
  - intros a -> Hge. set (k := (2 * (a - now) + 60000) `div` 120000).
    assert (1 ≤ k) as Hk by (apply Z.div_le_lower_bound; lia).
    pose proof (Z.mul_div_le (2 * (a - now) + 60000) 120000 ltac:(lia)).
    pose proof (Z.mul_succ_div_gt (2 * (a - now) + 60000) 120000 ltac:(lia)).
    fold k in H, H0. exists k. split_and!; try lia.
    by rewrite (proj2 (Z.ltb_lt 0 k)) by lia.
Qed.

Lemma minutes_remaining_label_witness :
  getMinutesRemaining Scenario.millis 1700000000000 "1700000900000" = "15 min"
  ∧ getMinutesRemaining Scenario.millis 1700000000000 "soon" = "Arriving".
Proof.
  destruct (minutes_remaining_label Scenario.millis 1700000000000 "1700000900000")
    as (_ & _ & Hk).
  destruct (Hk 1700000900000) as (k & Hk1 & Hk2 & ->); [reflexivity|lia|].
  assert (k = 15) as -> by lia.
  split; [reflexivity|].
  by apply (minutes_remaining_label Scenario.millis 1700000000000 "soon").
Defined.

Lemma prefix_refl s : String.prefix s s = true.
Proof. induction s as [|c s IH]; [done|]. simpl. by destruct (Ascii.ascii_dec c c). Qed.

Lemma includes_refl s : includes s s = true.
Proof.
  destruct s as [|c s]; [done|].
  change (includes (String c s) (String c s))
    with (String.prefix (String c s) (String c s) || includes s (String c s)).
  by rewrite prefix_refl.
Qed.

(** X8.  The search box never adds or reorders drivers: the list shown is a
    sublist of the drivers, all of them for the empty query, and ids that
    were unique stay unique.  A driver whose name or vehicle equals the query
    up to case is always shown. *)
Theorem search_shows_sublist_with_exact_matches (toLowerCase : string → string)
    searchQuery drivers :
  filteredDrivers toLowerCase searchQuery drivers `sublist_of` drivers ∧
  filteredDrivers toLowerCase "" drivers = drivers ∧
  (NoDup (ids drivers) →
   NoDup (ids (filteredDrivers toLowerCase searchQuery drivers))) ∧
  (∀ d, d ∈ drivers →
        toLowerCase (name d) = toLowerCase searchQuery
        ∨ toLowerCase (vehicle d) = toLowerCase searchQuery →
        d ∈ filteredDrivers toLowerCase searchQuery drivers).
Proof.
  assert (filteredDrivers toLowerCase searchQuery drivers `sublist_of` drivers)
    as Hsub.
  { unfold filteredDrivers. destruct (JS.truthy searchQuery); [|done].
    apply sublist_filter. }
  split_and!; try done.
  - intros Hnd. eapply sublist_NoDup; [exact Hnd|]. by apply fmap_sublist.
  - intros d Hd Hm. unfold filteredDrivers.
    destruct (JS.truthy searchQuery); [|done].
    apply list_elem_of_filter. split; [|done]. unfold matches.
    destruct Hm as [->| ->]; rewrite includes_refl; simpl;
      by rewrite ?orb_true_r.
Qed.

Lemma search_shows_sublist_with_exact_matches_witness :
  Scenario.john 1700000000000
  ∈ filteredDrivers Scenario.lower_ascii "JOHN DOE" [Scenario.john 1700000000000].
Proof.
  apply (search_shows_sublist_with_exact_matches Scenario.lower_ascii "JOHN DOE"
           [Scenario.john 1700000000000]).
  - by left.
  - left. reflexivity.
Defined.

End DisplayFacts.


(** ** More on the marker animation *)

Module AnimatorMore.
Import Animator AnimatorFacts.

Lemma removeMarker_removed id st : consistent st → removed id (removeMarker id st).
Proof.
  intros Hc. constructor; simpl.
  - apply lookup_delete_eq.
  - intros h r H. by apply (cancel_recorded_clears id st h r).
Qed.

Lemma request_frame_removed id r st :
  removed id st → markerId r ≠ id → removed id (request_frame r st).
Proof.
  intros [Hm Hp] Hr. constructor; simpl; [done|].
  intros h' r' H. apply request_frame_pending in H as [[_ ->]|[_ H]]; eauto.
Qed.

(** One event on a state where marker [id] is removed: it stays removed,
    and the event emits nothing for it. *)
Lemma step_removed id st e :
  removed id st → keeps_removed id e →
  removed id (step st e) ∧
  (emitted (step st e) = emitted st
   ∨ ∃ s, emitted (step st e) = s :: emitted st ∧ markerId (by_run s) ≠ id).
Proof.
  intros Hr He. pose proof Hr as [Hm Hp].
  destruct e as [m lng lat|m|m sLng sLat eLng eLat dur now|h t]; simpl in *.
  - split; [|by left]. constructor; simpl; [by rewrite lookup_insert_ne|done].
  - split; [|left; apply cancel_recorded_emitted].
    constructor; simpl.
    + unfold cancel_recorded. destruct (markerAnimations st !! m); simpl;
        by rewrite lookup_delete_None; right.
    + intros h r H. apply cancel_recorded_pending in H. eauto.
  - unfold animateMarkerMovement.
    destruct (markers st !! m) as [pos|] eqn:E; [|by split; [|left]].
    assert (m ≠ id) as Hmid by congruence.
    split; [|left; simpl; apply cancel_recorded_emitted].
    apply request_frame_removed; [|done].
    constructor.
    + unfold cancel_recorded. by destruct (markerAnimations st !! m).
    + intros h r H. apply cancel_recorded_pending in H. eauto.
  - destruct (frames st !! h) as [r|] eqn:E; [|by split; [|left]].
    assert (markerId r ≠ id) as Hne by eauto.
    assert (removed id (setLngLat r (sample r t) (cancelAnimationFrame h st)))
      as Hr'.
    { constructor; simpl; [by rewrite lookup_alter_ne|].
      intros h' r' H. apply cancelAnimationFrame_pending in H as [_ H]. eauto. }
    unfold animate. destruct (_ <? _)%float.
    + split; [by apply request_frame_removed|]. right. eexists. by split.
    + split; [done|]. right. eexists. by split.
Qed.

(** X9.  Once a marker is removed, its animation is over: nothing is pending
    for it, a call of [animateMarkerMovement] for it changes nothing, and
    until a marker is created for the id again no sample is emitted for it,
    whatever other events happen. *)
Theorem removed_marker_stays_silent (es later : list Event) (id : string) :
  let st := removeMarker id (exec initial es) in
  Forall (keeps_removed id) later →
  markers (exec st later) !! id = None ∧
  (∀ h r, pending (exec st later) h r → markerId r ≠ id) ∧
  (∀ sLng sLat eLng eLat dur now,
     animateMarkerMovement id sLng sLat eLng eLat dur now (exec st later)
     = exec st later) ∧
  ∃ fresh, emitted (exec st later) = fresh ++ emitted (exec initial es)
           ∧ ∀ s, s ∈ fresh → markerId (by_run s) ≠ id.
Proof.
  intros st Hl.
  assert (removed id st) as Hr
    by apply removeMarker_removed, exec_consistent, consistent_initial.
  assert (emitted st = [] ++ emitted (exec initial es)
          ∧ ∀ s, s ∈ [] → markerId (by_run s) ≠ id) as He.
  { split; [apply cancel_recorded_emitted|]. intros s Hs.
    by apply elem_of_nil in Hs. }
  clearbody st. revert st Hr He.
  generalize (@nil Sample) as fresh.
  induction Hl as [|e later Hk Hl IH]; intros fresh st Hr [He Hf]; simpl.
  - destruct Hr as [Hm Hp]. split_and!; try done.
    + intros. unfold animateMarkerMovement. by rewrite Hm.
    + by exists fresh.
  - destruct (step_removed id st e Hr Hk) as [Hr' [Hsame|(s & Hs & Hne)]].
    + apply (IH fresh); [done|]. by rewrite Hsame.
    + apply (IH (s :: fresh)); [done|]. split; [by rewrite Hs, He|].
      intros s' Hin. apply elem_of_cons in Hin as [->|Hin]; auto.
Qed.

Lemma removed_marker_stays_silent_witness :
  let es := [AddMarker "1" 44.3661 33.3152;
             Animate "1" 44.3661 33.3152 44.3761 33.3252 3000 0] in
  let st := exec (removeMarker "1" (exec initial es))
              [Frame 1 16; Animate "1" 44.3661 33.3152 44.3761 33.3252 3000 32;
               Frame 2 48] in
  markers st !! "1" = None ∧ emitted st = [].
Proof.
  intros es st.
  destruct (removed_marker_stays_silent es
              [Frame 1 16; Animate "1" 44.3661 33.3152 44.3761 33.3252 3000 32;
               Frame 2 48] "1") as (Hm & _ & _ & _).
  { repeat constructor. }
  split; [exact Hm|]. vm_compute. reflexivity.
Defined.

Lemma foldr_cancel_pending hs : ∀ st h r,
  pending (foldr cancelAnimationFrame st hs) h r → (h ∉ hs) ∧ pending st h r.
Proof.
  induction hs as [|h0 hs IH]; intros st h r H; simpl in *.
  - split; [apply not_elem_of_nil|done].
  - apply cancelAnimationFrame_pending in H as [Hne H].
    apply IH in H as [Hnin H]. split; [|done].
    intros Hin. apply elem_of_cons in Hin as [->|Hin]; done.
Qed.

(** X10.  The cleanup of the map effect leaves no frame callback pending,
    whatever happened before: every pending callback is recorded in
    [markerAnimations], and every recorded handle is cancelled. *)
Theorem cleanup_cancels_every_callback (es : list Event) :
  frames (cancel_all (exec initial es)) = ∅.
Proof.
  apply map_empty. intros h.
  destruct (frames (cancel_all (exec initial es)) !! h) as [r|] eqn:E; [|done].
  apply foldr_cancel_pending in E as [Hnin Hp].
  destruct (exec_consistent initial es consistent_initial) as [Ht _ _].
  apply Ht in Hp. exfalso. apply Hnin.
  apply list_elem_of_fmap. exists (markerId r, h). split; [done|].
  by apply elem_of_map_to_list.
Qed.

Lemma step_spent h st e : spent h st → spent h (step st e).
Proof.
  intros [Hg Hb].
  assert (∀ r s, frames s !! h = None → (h < next_frame s)%positive →
                 spent h (request_frame r s)) as Hreq.
  { intros r s Hs Hlt. constructor; simpl; [|lia].
    rewrite lookup_insert_ne by lia. done. }
  assert (∀ m, frames (cancel_recorded m st) !! h = None) as Hcr.
  { intros m. unfold cancel_recorded.
    destruct (markerAnimations st !! m); simpl; [|done].
    by rewrite lookup_delete_None; right. }
  destruct e as [m lng lat|m|m sLng sLat eLng eLat dur now|h' t]; simpl.
  - by constructor.
  - constructor; simpl; [apply Hcr|by rewrite cancel_recorded_next].
  - unfold animateMarkerMovement. destruct (markers st !! m); [|by constructor].
    apply Hreq; [apply Hcr|by rewrite cancel_recorded_next].
  - destruct (frames st !! h') as [r|] eqn:E; [|by constructor].
    unfold animate. destruct (_ <? _)%float.
    + apply Hreq; simpl; [by rewrite lookup_delete_None; right|done].
    + constructor; simpl; [by rewrite lookup_delete_None; right|done].
Qed.

(** X11.  A frame callback runs once: when the browser runs a pending
    callback it emits exactly one sample, the one of its run at that time,
    and its handle is never pending again, so a second frame with that
    handle changes nothing. *)
Theorem frame_callback_runs_once (es later : list Event) h r t t' :
  let st := exec initial es in
  pending st h r →
  let st1 := step st (Frame h t) in
  emitted st1 = mkSample r (sample r t).1 (sample r t).2 :: emitted st ∧
  frames (exec st1 later) !! h = None ∧
  step (exec st1 later) (Frame h t') = exec st1 later.
Proof.
  intros st Hp st1.
  assert (consistent st) as [_ Hh _] by apply exec_consistent, consistent_initial.
  pose proof (Hh h r Hp) as Hlt.
  assert (emitted st1 = mkSample r (sample r t).1 (sample r t).2 :: emitted st)
    as He.
  { subst st1. simpl. unfold pending in Hp. rewrite Hp. unfold animate.
    by destruct (_ <? _)%float. }
  assert (spent h st1) as Hs.
  { subst st1. simpl. unfold pending in Hp. rewrite Hp. unfold animate.
    destruct (_ <? _)%float; constructor; simpl; try lia.
    - rewrite lookup_insert_ne by lia. apply lookup_delete_eq.
    - apply lookup_delete_eq. }
  assert (spent h (exec st1 later)) as [Hg _].
  { clear He. clearbody st1. revert st1 Hs.
    induction later as [|e later IH]; intros st1 Hs; [done|].
    simpl. apply IH. by apply step_spent. }
  split_and!; [done|done|]. simpl. by rewrite Hg.
Qed.

Lemma frame_callback_runs_once_witness :
  let es := [AddMarker "1" 44.3661 33.3152;
             Animate "1" 44.3661 33.3152 44.3761 33.3252 3000 0] in
  let st1 := step (exec initial es) (Frame 1 16) in
  frames st1 !! 1%positive = None ∧ step st1 (Frame 1 32) = st1.
Proof.
  intros es st1.
  destruct (frame_callback_runs_once es [] 1
              (mkRun "1" 44.3661 33.3152 44.3761 33.3252 3000 0 1) 16 32)
    as (_ & Hg & Hs).
  { vm_compute. reflexivity. }
  split; [exact Hg | exact Hs].
Defined.

End AnimatorMore.


(** ** More on the WebSocket hook *)

Module TransportMore.
Import Transport TransportFacts.
#[local] Open Scope nat_scope.

(** What [onclose] leaves alone: the sockets and the current one; and the
    React state is CLOSED afterwards. *)
Lemma onclose_frame p wasClean st :
  sockets (onclose p wasClean st) = sockets st ∧
  socket (onclose p wasClean st) = socket st ∧
  readyState (onclose p wasClean st) = CLOSED.
Proof.
  unfold onclose. simpl.
  destruct (negb wasClean && _); simpl.
  - by destruct (reconnectTimeoutRef st).
  - by destruct (bool_decide (reconnectAttempts p ≤ reconnectCount st)).
Qed.

Lemma close_current_frame st :
  readyState (close_current st) = readyState st ∧
  reconnectCount (close_current st) = reconnectCount st ∧
  timers (close_current st) = timers st ∧
  scheduled (close_current st) = scheduled st ∧
  next_timer (close_current st) = next_timer st ∧
  reconnectTimeoutRef (close_current st) = reconnectTimeoutRef st ∧
  socket (close_current st) = socket st ∧
  length (sockets (close_current st)) = length (sockets st) ∧
  current_state (close_current st) ≠ Some OPEN ∧
  current_state (close_current st) ≠ Some CONNECTING.
Proof.
  unfold close_current, current_state.
  destruct (socket st) as [c|] eqn:Ec; simpl; [|by rewrite Ec].
  destruct (sockets st !! c) as [[]|] eqn:E; simpl; rewrite ?Ec, ?length_insert;
    rewrite ?list_lookup_insert_eq by (by eapply lookup_lt_Some);
    rewrite ?E; by split_and!.
Qed.

Lemma connect_readyState p st : readyState (connect p st) = readyState st.
Proof. by destruct (connect_frame p st) as (_ & _ & _ & ? & _). Qed.

Lemma step_readyState p st e :
  readyState (step p st e) = last_transition (readyState st) [e].
Proof.
  destruct e as [s|s w|s|t|]; simpl.
  - done.
  - apply onclose_frame.
  - done.
  - destruct (timers st !! t); [|done]. by rewrite connect_readyState.
  - unfold reconnect. rewrite connect_readyState. simpl.
    apply close_current_frame.
Qed.

Lemma last_transition_settled r es :
  last_transition r es = r ∨ last_transition r es = OPEN
  ∨ last_transition r es = CLOSED.
Proof.
  revert r. induction es as [|e es IH]; intros r; [by left|].
  destruct e; simpl; try apply IH; destruct (IH OPEN) as [|[|]];
    destruct (IH CLOSED) as [|[|]]; auto.
Qed.

(** X12.  [connectionStatus] is what the last open or close event of any
    socket left: "open" after an open, "closed" after a close, and the
    initial "connecting" only as long as neither has happened.  Timers,
    errors and [reconnect()] never change it, so it never returns to
    "connecting" and is never "closing". *)
Theorem connectionStatus_shows_last_transition (p : Props) (es : list Event) :
  let st := exec p (mounted p) es in
  readyState st = last_transition CONNECTING es ∧
  getConnectionStatus st ≠ "closing" ∧
  (∀ e, passive e = true → (∀ s w, e ≠ Closed s w) →
        getConnectionStatus (step p st e) = getConnectionStatus st) ∧
  getConnectionStatus (step p st Reconnect) = getConnectionStatus st.
Proof.
  intros st.
  assert (∀ st0, readyState (exec p st0 es) = last_transition (readyState st0) es)
    as Hrun.
  { induction es as [|e es IH]; intros st0; [done|].
    simpl. rewrite IH, step_readyState. by destruct e. }
  assert (readyState (mounted p) = CONNECTING) as Hm.
  { unfold mounted. by rewrite connect_readyState. }
  assert (readyState st = last_transition CONNECTING es) as Hst
    by (unfold st; by rewrite Hrun, Hm).
  split_and!.
  - done.
  - unfold getConnectionStatus. rewrite Hst.
    destruct (last_transition_settled CONNECTING es) as [E | [E | E]]; by rewrite E.
  - intros e He Hc. unfold getConnectionStatus. rewrite step_readyState.
    destruct e as [s|s w|s|t|]; try done. by destruct (Hc s w).
  - unfold getConnectionStatus. by rewrite step_readyState.
Qed.

Lemma connectionStatus_shows_last_transition_witness :
  let p := defaults true in
  let st := exec p (mounted p) [Opened 0; Closed 0 false] in
  getConnectionStatus st = "closed" ∧
  getConnectionStatus (step p st (TimerFired 1)) = "closed" ∧
  current_state (step p st (TimerFired 1)) = Some CONNECTING.
Proof.
  intros p st. subst st.
  destruct (connectionStatus_shows_last_transition p [Opened 0; Closed 0 false])
    as (Hr & _ & Hkeep & _).
  split_and!.
  - unfold getConnectionStatus. by rewrite Hr.
  - rewrite (Hkeep (TimerFired 1)); [|done|done].
    unfold getConnectionStatus. by rewrite Hr.
  - vm_compute. reflexivity.
Defined.

(** X13.  The close of a socket that is no longer the current one still
    marks the hook closed: the current socket stays open and can send, while
    [connectionStatus] reads "closed". *)
Theorem close_of_replaced_socket_hides_open_one (p : Props) (st : Hook)
    (c s : nat) (wasClean : bool) (Obj : Type) (stringify : Obj → string)
    (text : string) :
  socket st = Some c → s ≠ c → sockets st !! c = Some OPEN →
  let st' := step p st (Closed s wasClean) in
  current_state st' = Some OPEN ∧
  getConnectionStatus st' = "closed" ∧
  sendMessage Obj stringify (inl text) st' = Sent text.
Proof.
  intros Hc Hne Ho st'.
  assert (current_state st' = Some OPEN) as Hcur.
  { unfold st', current_state. simpl.
    destruct (onclose_frame p wasClean (set_socket_state s CLOSED st))
      as (-> & -> & _). simpl.
    by rewrite Hc, list_lookup_insert_ne. }
  split_and!; [done| |].
  - unfold getConnectionStatus, st'. simpl.
    by destruct (onclose_frame p wasClean (set_socket_state s CLOSED st))
      as (_ & _ & ->).
  - unfold sendMessage. by rewrite Hcur.
Qed.

Lemma close_of_replaced_socket_hides_open_one_witness :
  let p := defaults true in
  let st := exec p (mounted p) [Opened 0; Reconnect; Opened 1; Closed 0 true] in
  current_state st = Some OPEN ∧ getConnectionStatus st = "closed".
Proof.
  intros p st.
  destruct (close_of_replaced_socket_hides_open_one p
              (exec p (mounted p) [Opened 0; Reconnect; Opened 1]) 1 0 true
              unit (λ _, "{}") "ping") as (Hc & Hs & _);
    [reflexivity | lia | reflexivity |].
  split; [exact Hc | exact Hs].
Defined.

Lemma connect_timers_tracked p st : timers_tracked st → timers_tracked (connect p st).
Proof.
  intros H. unfold connect.
  by destruct (current_state st) as [[]|]; destruct (url_ok p).
Qed.

Lemma step_timers_tracked p st e : timers_tracked st → timers_tracked (step p st e).
Proof.
  intros H. destruct e as [s|s w|s|t|]; simpl.
  - done.
  - unfold onclose. simpl. destruct (negb w && _); simpl.
    + intros t d Ht. simpl in *.
      apply lookup_insert_Some in Ht as [[<- _]|[Hne Ht]]; [done|].
      exfalso. destruct (reconnectTimeoutRef st) as [t0|] eqn:E; simpl in Ht.
      * apply lookup_delete_Some in Ht as [Hne' Ht]. apply H in Ht. simpl in Ht.
        congruence.
      * apply H in Ht. simpl in Ht. congruence.
    + by destruct (bool_decide _).
  - done.
  - destruct (timers st !! t) eqn:E; [|done].
    apply connect_timers_tracked. intros t' d Ht. simpl in *.
    apply lookup_delete_Some in Ht as [_ Ht]. by apply H in Ht.
  - unfold reconnect. apply connect_timers_tracked.
    intros t d Ht. simpl in *.
    destruct (close_current_frame st) as (_ & _ & Et & _ & _ & Er & _).
    rewrite Et in Ht. rewrite Er. by apply H in Ht.
Qed.

Lemma exec_timers_tracked p es : ∀ st,
  timers_tracked st → timers_tracked (exec p st es).
Proof.
  induction es as [|e es IH]; intros st H; [done|].
  simpl. apply IH. by apply step_timers_tracked.
Qed.

Lemma mounted_timers_tracked p : timers_tracked (mounted p).
Proof. apply connect_timers_tracked. intros t d Ht. by simplify_map_eq. Qed.

(** X14.  At every moment at most one reconnect timer is pending, the one
    kept in [reconnectTimeoutRef]; so the cleanup of the mount effect, which
    clears that one, leaves no timer pending and no socket open or
    connecting. *)
Theorem at_most_one_reconnect_timer (p : Props) (es : list Event) :
  let st := exec p (mounted p) es in
  (∀ t d, timers st !! t = Some d → reconnectTimeoutRef st = Some t) ∧
  (∀ t1 t2 d1 d2, timers st !! t1 = Some d1 → timers st !! t2 = Some d2 →
                  t1 = t2) ∧
  timers (cleanup st) = ∅ ∧
  current_state (cleanup st) ≠ Some OPEN ∧
  current_state (cleanup st) ≠ Some CONNECTING.
Proof.
  intros st.
  assert (timers_tracked st) as H
    by apply exec_timers_tracked, mounted_timers_tracked.
  split_and!.
  - done.
  - intros t1 t2 d1 d2 H1 H2. apply H in H1, H2. congruence.
  - unfold cleanup.
    destruct (close_current_frame
                match reconnectTimeoutRef st with
                | Some t => clearTimeout t st
                | None => st
                end) as (_ & _ & -> & _).
    apply map_empty. intros t.
    destruct (reconnectTimeoutRef st) as [t0|] eqn:E; simpl.
    + destruct (delete t0 (timers st) !! t) as [d|] eqn:Ed; [|done].
      apply lookup_delete_Some in Ed as [Hne Ed]. apply H in Ed. congruence.
    + destruct (timers st !! t) as [d|] eqn:Ed; [|done].
      apply H in Ed. congruence.
  - apply close_current_frame.
  - apply close_current_frame.
Qed.

Lemma at_most_one_reconnect_timer_witness :
  let p := defaults true in
  let st := exec p (mounted p) [Closed 0 false; Closed 0 false] in
  reconnectTimeoutRef st = Some 2%positive ∧ timers (cleanup st) = ∅.
Proof.
  intros p st.
  destruct (at_most_one_reconnect_timer p [Closed 0 false; Closed 0 false])
    as (Href & _ & Hclean & _).
  split; [|exact Hclean].
  apply (Href 2%positive 5000). vm_compute. reflexivity.
Defined.

Lemma cleanup_frame st :
  reconnectCount (cleanup st) = reconnectCount st ∧
  scheduled (cleanup st) = scheduled st ∧
  next_timer (cleanup st) = next_timer st ∧
  length (sockets (cleanup st)) = length (sockets st) ∧
  current_state (cleanup st) ≠ Some OPEN ∧
  current_state (cleanup st) ≠ Some CONNECTING.
Proof.
  unfold cleanup.
  destruct (close_current_frame
              match reconnectTimeoutRef st with
              | Some t => clearTimeout t st
              | None => st
              end) as (_ & -> & _ & -> & -> & _ & _ & -> & Ho & Hc).
  split_and!; try done; by destruct (reconnectTimeoutRef st).
Qed.

(** X15.  The cleanup does not detach the close handler: an unclean close
    delivered after it, with the counter below the budget, schedules a
    reconnect all the same, and when that timer fires a new socket is
    created (if the URL is accepted). *)
Theorem close_after_cleanup_reconnects (p : Props) (st : Hook) (s : nat) :
  reconnectCount st < reconnectAttempts p → url_ok p = true →
  let st1 := step p (cleanup st) (Closed s false) in
  let st2 := step p st1 (TimerFired (next_timer st)) in
  timers st1 !! next_timer st = Some (reconnectInterval p) ∧
  scheduled st1 = scheduled st ++ [reconnectInterval p] ∧
  length (sockets st2) = S (length (sockets st)) ∧
  current_state st2 = Some CONNECTING.
Proof.
  intros Hlt Hurl.
  destruct (cleanup_frame st) as (Hc & Hs & Hn & Hlen & Hno & Hnc).
  generalize dependent (cleanup st). intros c Hc Hs Hn Hlen Hno Hnc st1 st2.
  destruct (onclose_unclean_below p (set_socket_state s CLOSED c))
    as (_ & Hsch & Htim & _ & _); [simpl; lia|]. simpl in Hsch, Htim.
  rewrite Hn in Htim. rewrite Hs in Hsch.
  destruct (onclose_frame p false (set_socket_state s CLOSED c))
    as (Hso & Hsk & _). simpl in Hso, Hsk.
  assert (current_state st1 ≠ Some OPEN ∧ current_state st1 ≠ Some CONNECTING)
    as [Ho1 Hc1].
  { unfold current_state, st1. simpl. rewrite Hso, Hsk.
    unfold current_state in Hno, Hnc.
    destruct (socket c) as [k|]; [|done].
    destruct (decide (s = k)) as [->|Hne].
    - destruct (sockets c !! k) eqn:E.
      + by rewrite list_lookup_insert_eq by (by eapply lookup_lt_Some).
      + rewrite list_insert_ge by (by apply lookup_ge_None). by rewrite E.
    - by rewrite list_lookup_insert_ne. }
  assert (length (sockets st1) = length (sockets st)) as Hl1.
  { unfold st1. simpl. by rewrite Hso, length_insert. }
  assert (st2 = connect p (clearTimeout (next_timer st) st1)) as ->.
  { assert (timers st1 !! next_timer st = Some (reconnectInterval p)) as Htim'
      by exact Htim.
    unfold st2, step. by rewrite Htim'. }
  assert (current_state (clearTimeout (next_timer st) st1) = current_state st1)
    as Ecur by done.
  split_and!; [done|done| |].
  - unfold connect. rewrite Ecur.
    destruct (current_state st1) as [[]|]; try done; rewrite Hurl; simpl;
      rewrite length_app, Hl1; simpl; lia.
  - unfold connect. rewrite Ecur.
    destruct (current_state st1) as [[]|]; try done; rewrite Hurl;
      unfold current_state; simpl; by rewrite list_lookup_middle.
Qed.

Lemma close_after_cleanup_reconnects_witness :
  let p := defaults true in
  let st1 := step p (cleanup (mounted p)) (Closed 0 false) in
  scheduled st1 = [5000] ∧
  current_state (step p st1 (TimerFired 1)) = Some CONNECTING.
Proof.
  intros p st1.
  destruct (close_after_cleanup_reconnects p (mounted p) 0)
    as (_ & Hs & _ & Hc); [simpl; lia | reflexivity |].
  split; [exact Hs | exact Hc].
Defined.

Lemma step_within_budget p st e :
  reconnectCount st ≤ reconnectAttempts p →
  Forall (λ d, d = reconnectInterval p) (scheduled st) →
  reconnectCount (step p st e) ≤ reconnectAttempts p ∧
  Forall (λ d, d = reconnectInterval p) (scheduled (step p st e)).
Proof.
  intros Hc Hs. destruct e as [s|s w|s|t|]; simpl.
  - split; [lia|done].
  - unfold onclose. simpl. destruct w; simpl.
    + by destruct (bool_decide (reconnectAttempts p ≤ _)).
    + destruct (bool_decide (reconnectCount st < reconnectAttempts p)) eqn:E.
      * apply bool_decide_eq_true in E.
        destruct (reconnectTimeoutRef st); simpl;
          (split; [lia|apply Forall_app; split; [done|by constructor]]).
      * by destruct (bool_decide (reconnectAttempts p ≤ _)).
  - done.
  - destruct (timers st !! t); [|done].
    by destruct (connect_frame p (clearTimeout t st)) as (-> & -> & _).
  - unfold reconnect.
    destruct (connect_frame p (set_reconnectCount 0 (close_current st)))
      as (-> & -> & _). simpl. split; [lia|].
    by destruct (close_current_frame st) as (_ & _ & _ & -> & _).
Qed.

Lemma exec_within_budget p es : ∀ st,
  reconnectCount st ≤ reconnectAttempts p
  ∧ Forall (λ d, d = reconnectInterval p) (scheduled st) →
  reconnectCount (exec p st es) ≤ reconnectAttempts p
  ∧ Forall (λ d, d = reconnectInterval p) (scheduled (exec p st es)).
Proof.
  induction es as [|e es IH]; intros st [Hc Hs]; [done|].
  simpl. apply IH. by apply step_within_budget.
Qed.

(** X16.  Whatever the sockets, the timers and the caller do, the attempt
    counter never exceeds the budget and every reconnect ever scheduled has
    the configured delay. *)
Theorem counter_stays_within_budget (p : Props) (es : list Event) :
  let st := exec p (mounted p) es in
  reconnectCount st ≤ reconnectAttempts p ∧
  Forall (λ d, d = reconnectInterval p) (scheduled st).
Proof.
  intros st. unfold st. apply exec_within_budget. unfold mounted.
  destruct (connect_frame p unmounted) as (-> & -> & _). simpl.
  split; [lia|constructor].
Qed.

(** X17.  [sendMessage] hands a frame to the socket exactly when the current
    socket is open, and then the frame is the text itself or the stringified
    object; nothing is sent, and the error is reported, before the first
    socket exists and between [reconnect()] and the opening of the socket it
    created. *)
Theorem sendMessage_needs_open_socket (Obj : Type) (stringify : Obj → string)
    (p : Props) (st : Hook) (message : string + Obj) :
  (current_state st = Some OPEN →
   sendMessage Obj stringify message st
   = Sent (match message with inl text => text | inr o => stringify o end)) ∧
  (current_state st ≠ Some OPEN →
   sendMessage Obj stringify message st = NotConnected) ∧
  sendMessage Obj stringify message unmounted = NotConnected ∧
  (url_ok p = true →
   sendMessage Obj stringify message (reconnect p st) = NotConnected ∧
   sendMessage Obj stringify message
     (step p (reconnect p st) (Opened (length (sockets st))))
   = Sent (match message with inl text => text | inr o => stringify o end)).
Proof.
  split_and!.
  - intros H. unfold sendMessage. by rewrite H.
  - intros H. unfold sendMessage. by destruct (current_state st) as [[]|].
  - done.
  - intros Hurl. destruct (reconnect_opens_socket p st Hurl) as [Hs Hc].
    split; [unfold sendMessage; by rewrite Hc|].
    unfold sendMessage, current_state. simpl. rewrite Hs.
    rewrite list_lookup_insert_eq; [done|].
    unfold current_state in Hc. rewrite Hs in Hc. by eapply lookup_lt_Some.
Qed.

Lemma sendMessage_needs_open_socket_witness :
  let p := defaults true in
  sendMessage unit (λ _, "{}") (inl "ping") (mounted p) = NotConnected ∧
  sendMessage unit (λ _, "{}") (inr ()) (step p (mounted p) (Opened 0)) = Sent "{}".
Proof.
  intros p. split.
  - apply (sendMessage_needs_open_socket unit (λ _, "{}") p (mounted p)).
    intros H. discriminate H.
  - apply (sendMessage_needs_open_socket unit (λ _, "{}") p
             (step p (mounted p) (Opened 0)) (inr ())).
    reflexivity.
Defined.

End TransportMore.
